(** * The durable retry queue of the Pixelfed folder uploader

    A shallow embedding of [pixelfed_uploader/upload_queue.py] (class
    [UploadQueue]) and the properties its specification states about it.

    The Python class keeps a list of dictionaries, hands out references to
    them ([get_next] returns the stored dictionary itself), looks them up
    again by [list.remove] / [list.index], and mirrors the list to a JSON
    file.  The embedding therefore has
    - a heap of dictionary objects addressed by location, so that two stored
      dictionaries with the same field values are still two objects;
    - the queue as a list of locations;
    - the file behind [queue_file];
    - a small state-and-exception monad, so that [try] / [except] and
      "never raises" are statements about the code and not about the type
      of a function.

    The callers of the queue follow: the watcher's [on_created] and
    [scan_existing_files] and the loop's [process_upload_queue] of
    [main.py], and of [pixelfed_client.py] the parts that do not talk to
    the server, [upload_and_post] and [_get_mime_type]; the methods that do
    are taken by their answers. *)

From Stdlib Require Import ZArith String List Lia.
From stdpp Require Import base decidable option list numbers strings gmap.

Import ListNotations.
Local Open Scope string_scope.
Local Open Scope list_scope.

(** ** Data *)

(** Instants.  The source holds them as floats ([time.time()]) and as
    ISO-8601 text ([datetime.now().isoformat()], read back with
    [datetime.fromisoformat(..).timestamp()]); here an instant is the exact
    number of seconds it denotes. *)
Abbreviation time := Z.

(** Addresses of dictionary objects. *)
Abbreviation loc := nat.

(** One queue entry: the dictionary built by [add], with its six keys. *)
Record dict := Dict {
  file_path : string;
  caption : string;
  added_at : time;
  retry_count : Z;
  last_attempt : option time;
  error : option string
}.

#[global] Instance dict_eq_dec : EqDecision dict.
Proof. solve_decision. Defined.

(** Assignments to single keys, [d['retry_count'] = v] and the like. *)
Definition set_retry_count (v : Z) (d : dict) : dict :=
  {| file_path := file_path d; caption := caption d; added_at := added_at d;
     retry_count := v; last_attempt := last_attempt d; error := error d |}.

Definition set_last_attempt (v : option time) (d : dict) : dict :=
  {| file_path := file_path d; caption := caption d; added_at := added_at d;
     retry_count := retry_count d; last_attempt := v; error := error d |}.

Definition set_error (v : option string) (d : dict) : dict :=
  {| file_path := file_path d; caption := caption d; added_at := added_at d;
     retry_count := retry_count d; last_attempt := last_attempt d; error := v |}.

(** What the file behind [queue_file] holds: text that [json.load] rejects,
    or the JSON array of records that [json.dump] writes for a queue. *)
Inductive content :=
  | Unparsable (text : string)
  | Document (records : list dict).

(** The durable store: the file (absent or with some content), and whether
    [_save_queue]'s [mkdir] / [open(.., 'w')] / [json.dump] go through. *)
Record store := Store {
  contents : option content;
  writable : bool
}.

(** The program state: every dictionary object created so far, the list
    [self.queue] of references to some of them, and the store. *)
Record state := State {
  heap : list dict;
  queue : list loc;
  queue_file : store
}.

(** ** Exceptions and the monad of the methods *)

Inductive exn :=
  | ValueError          (* list.remove(x) / list.index(x): x not in list *)
  | JSONDecodeError     (* json.load on text that is not JSON; a ValueError *)
  | IndexError          (* q[i] with i out of range *)
  | OSError.            (* the file cannot be created or written *)

(** [except ValueError] catches the class and its subclasses. *)
Definition is_ValueError (e : exn) : bool :=
  match e with
  | ValueError | JSONDecodeError => true
  | IndexError | OSError => false
  end.

(** [except Exception] catches every one of them. *)
Definition is_Exception (e : exn) : bool := true.

Inductive result (A : Type) :=
  | Return (a : A)
  | Raise (e : exn).
Arguments Return {A} a.
Arguments Raise {A} e.

(** A method body: it may change the state and then either returns a value
    or raises; state changes made before a raise stay. *)
Definition M (A : Type) : Type := state -> result A * state.

Definition ret {A} (a : A) : M A := fun s => (Return a, s).

Definition raise {A} (e : exn) : M A := fun s => (Raise e, s).

Definition bind {A B} (m : M A) (k : A -> M B) : M B :=
  fun s =>
    match m s with
    | (Return a, s') => k a s'
    | (Raise e, s') => (Raise e, s')
    end.

(** [try: body except C: handler] *)
Definition try_except {A} (body : M A) (catches : exn -> bool) (handler : exn -> M A) : M A :=
  fun s =>
    match body s with
    | (Return a, s') => (Return a, s')
    | (Raise e, s') => if catches e then handler e s' else (Raise e, s')
    end.

Declare Scope py_scope.
Delimit Scope py_scope with py.
Notation "x <- m ;; k" := (bind m (fun x => k))
  (at level 100, m at next level, right associativity) : py_scope.
Notation "m ;; k" := (bind m (fun _ => k))
  (at level 100, right associativity) : py_scope.
Local Open Scope py_scope.

Definition get_state : M state := fun s => (Return s, s).

Definition set_heap (h : list dict) : M unit :=
  fun s => (Return tt, {| heap := h; queue := queue s; queue_file := queue_file s |}).

Definition set_queue (q : list loc) : M unit :=
  fun s => (Return tt, {| heap := heap s; queue := q; queue_file := queue_file s |}).

Definition set_contents (c : content) : M unit :=
  fun s => (Return tt,
            {| heap := heap s; queue := queue s;
               queue_file := {| contents := Some c; writable := writable (queue_file s) |} |}).

(** A dictionary display [{...}]: a new object, at a new address. *)
Definition new_dict (v : dict) : M loc :=
  fun s => (Return (length (heap s)),
            {| heap := heap s ++ [v]; queue := queue s; queue_file := queue_file s |}).

(** [d[key] = ...] / [d[key] += ...] on the object at [l]. *)
Definition update_dict (l : loc) (f : dict -> dict) : M unit :=
  s <- get_state ;;
  match heap s !! l with
  | Some v => set_heap (<[l := f v]> (heap s))
  | None => ret tt
  end.

(** ** Python's list methods on a list of dictionaries *)

(** [a == b] as [list.remove] and [list.index] test it: the same object, or
    dictionaries with equal values under every key. *)
Definition dict_eq (h : list dict) (a b : loc) : bool :=
  bool_decide (a = b) ||
  match h !! a, h !! b with
  | Some va, Some vb => bool_decide (va = vb)
  | _, _ => false
  end.

(** [q.index(x)]: the position of the first element equal to [x];
    [None] stands for the ValueError. *)
Fixpoint list_index (h : list dict) (q : list loc) (x : loc) : option nat :=
  match q with
  | [] => None
  | l :: q' => if dict_eq h l x then Some 0 else S <$> list_index h q' x
  end.

(** [q.remove(x)]: [q] without the first element equal to [x];
    [None] stands for the ValueError. *)
Fixpoint list_remove (h : list dict) (q : list loc) (x : loc) : option (list loc) :=
  match q with
  | [] => None
  | l :: q' => if dict_eq h l x then Some q' else (l ::.) <$> list_remove h q' x
  end.

(** [q[idx]] *)
Definition list_getitem (q : list loc) (idx : nat) : M loc :=
  match q !! idx with
  | Some l => ret l
  | None => raise IndexError
  end.

(** ** The methods of [UploadQueue] *)

(** The records of the stored dictionaries, in list order: what
    [json.dump(self.queue, f, indent=2)] serializes. *)
Definition records_of (h : list dict) (q : list loc) : list dict :=
  omap (fun l => h !! l) q.

(** The body of the [try] in [_save_queue]. *)
Definition json_dump : M unit :=
  s <- get_state ;;
  if writable (queue_file s)
  then set_contents (Document (records_of (heap s) (queue s)))
  else raise OSError.

(** [_save_queue]: whatever goes wrong with the write is logged and
    swallowed. *)
Definition _save_queue : M unit :=
  try_except json_dump is_Exception (fun _ => ret tt).

(** [json.load] builds new dictionary objects, one per record. *)
Fixpoint new_dicts (records : list dict) : M (list loc) :=
  match records with
  | [] => ret []
  | v :: rest => l <- new_dict v ;; ls <- new_dicts rest ;; ret (l :: ls)
  end.

(** [json.load(f)] on the content of the file. *)
Definition json_load (c : content) : M (list loc) :=
  match c with
  | Unparsable _ => raise JSONDecodeError
  | Document records => new_dicts records
  end.

(** [_load_queue]: the file is read when it exists; a failure to read it
    is logged and the queue is empty. *)
Definition _load_queue : M unit :=
  s <- get_state ;;
  match contents (queue_file s) with
  | Some c =>
      try_except (q <- json_load c ;; set_queue q)
        is_Exception
        (fun _ => set_queue [])
  | None => set_queue []
  end.

(** [UploadQueue(queue_file)], in a process whose heap may already hold
    dictionaries. *)
Definition __init__ (qf : store) : M unit :=
  (fun s => (Return tt, {| heap := heap s; queue := []; queue_file := qf |})) ;;
  _load_queue.

(** [add(file_path, caption)]; [caption] is [""] when the caller leaves it
    out, [now] is what [datetime.now()] reads. *)
Definition add (file_path caption : string) (now : time) : M unit :=
  item <- new_dict {| file_path := file_path;
                      caption := caption;
                      added_at := now;
                      retry_count := 0;
                      last_attempt := None;
                      error := None |} ;;
  s <- get_state ;;
  set_queue (queue s ++ [item]) ;;
  _save_queue.

(** Lines 87-99 of the source: the delay for a retry count. *)
Definition backoff_delay (retry_count : Z) : Z :=
  if (retry_count =? 0)%Z then 0
  else if (retry_count =? 1)%Z then 10
  else if (retry_count =? 2)%Z then 30
  else if (retry_count =? 3)%Z then 60
  else if (retry_count =? 4)%Z then 120
  else 300.

(** The [for item in self.queue] loop of [get_next].  A reference that
    points to no object is passed over: there is none in a well-formed
    state. *)
Fixpoint get_next_loop (h : list dict) (now : time) (q : list loc) : option loc :=
  match q with
  | [] => None
  | item :: rest =>
      match h !! item with
      | None => get_next_loop h now rest
      | Some d =>
          match last_attempt d with
          | None => Some item
          | Some last_attempt_time =>
              if (now - last_attempt_time >=? backoff_delay (retry_count d))%Z
              then Some item
              else get_next_loop h now rest
          end
      end
  end.

(** [get_next()]; [now] is what [time.time()] reads.  The result is a
    reference to the stored dictionary, not a copy. *)
Definition get_next (now : time) : M (option loc) :=
  s <- get_state ;;
  match queue s with
  | [] => ret None
  | _ => ret (get_next_loop (heap s) now (queue s))
  end.

(** [mark_success(item)]: [self.queue.remove(item)], then the write; the
    ValueError of a missing item is logged. *)
Definition mark_success (item : loc) : M unit :=
  try_except
    (s <- get_state ;;
     match list_remove (heap s) (queue s) item with
     | Some q' => set_queue q'
     | None => raise ValueError
     end ;;
     _save_queue)
    is_ValueError
    (fun _ => ret tt).

(** [mark_failure(item, error)]: [idx = self.queue.index(item)], the three
    assignments through [self.queue[idx]], then the write; the ValueError of
    a missing item is logged. *)
Definition mark_failure (item : loc) (error : string) (now : time) : M unit :=
  try_except
    (s <- get_state ;;
     match list_index (heap s) (queue s) item with
     | None => raise ValueError
     | Some idx =>
         l <- list_getitem (queue s) idx ;;
         update_dict l (fun d => set_retry_count (retry_count d + 1) d) ;;
         l <- list_getitem (queue s) idx ;;
         update_dict l (set_last_attempt (Some now)) ;;
         l <- list_getitem (queue s) idx ;;
         update_dict l (set_error (Some error)) ;;
         _save_queue
     end)
    is_ValueError
    (fun _ => ret tt).

(** [size()] *)
Definition size : M Z :=
  s <- get_state ;; ret (Z.of_nat (length (queue s))).

Record stats := Stats {
  total : Z;
  never_attempted : Z;
  retrying : Z;
  max_retry_count : Z
}.

(** [max(xs, default=d)] *)
Definition py_max (xs : list Z) (default : Z) : Z :=
  match xs with
  | [] => default
  | x :: rest => fold_left Z.max rest x
  end.

(** [sum(1 for item in items if p(item))] *)
Definition count_if (p : dict -> bool) (items : list dict) : Z :=
  Z.of_nat (length (filter (fun d => p d = true) items)).

(** [get_stats()] *)
Definition get_stats : M stats :=
  s <- get_state ;;
  match queue s with
  | [] => ret {| total := 0; never_attempted := 0; retrying := 0; max_retry_count := 0 |}
  | _ =>
      let items := records_of (heap s) (queue s) in
      ret {| total := Z.of_nat (length (queue s));
             never_attempted := count_if (fun d => bool_decide (last_attempt d = None)) items;
             retrying := count_if (fun d => negb (bool_decide (last_attempt d = None))) items;
             max_retry_count := py_max (map retry_count items) 0 |}
  end.

(** ** Sequences of calls *)

(** What a client of the class can do: call a method, or build a dictionary
    of its own (as the tests do with their [fake_item]). *)
Inductive call :=
  | Add (file_path caption : string) (now : time)
  | GetNext (now : time)
  | MarkSuccess (item : loc)
  | MarkFailure (item : loc) (error : string) (now : time)
  | NewDict (d : dict).

Definition exec (c : call) : M unit :=
  match c with
  | Add file_path caption now => add file_path caption now
  | GetNext now => get_next now ;; ret tt
  | MarkSuccess item => mark_success item
  | MarkFailure item error now => mark_failure item error now
  | NewDict d => new_dict d ;; ret tt
  end.

Fixpoint run (cs : list call) : M unit :=
  match cs with
  | [] => ret tt
  | c :: cs' => exec c ;; run cs'
  end.

(** ** Well-formed states *)

(** Every reference in the queue points to an object, and no object is in
    the queue twice: [add] and [json.load] only ever put new objects in. *)
Definition wf (s : state) : Prop :=
  NoDup (queue s) /\ Forall (fun l => l < length (heap s)) (queue s).

#[global] Instance wf_dec (s : state) : Decision (wf s).
Proof. unfold wf. apply _. Defined.

(** The dictionary that [add] builds. *)
Definition fresh_dict (file_path caption : string) (now : time) : dict :=
  {| file_path := file_path; caption := caption; added_at := now;
     retry_count := 0; last_attempt := None; error := None |}.

(** The [total] that [get_stats] reports. *)
Definition total_of (s : state) : result Z :=
  match get_stats s with
  | (Return st, _) => Return (total st)
  | (Raise e, _) => Raise e
  end.

(** The policy of [get_next], in the words of the specification. *)
Definition eligible (now : time) (d : dict) : Prop :=
  match last_attempt d with
  | None => True
  | Some t => (now - t >= backoff_delay (retry_count d))%Z
  end.

(** The object at [l] is eligible. *)
Definition eligible_at (h : list dict) (now : time) (l : loc) : Prop :=
  exists d, h !! l = Some d /\ eligible now d.

(** [retryCount == 0] exactly when [lastAttemptAt == null]. *)
Definition retry_invariant (d : dict) : Prop :=
  retry_count d = 0%Z <-> last_attempt d = None.

(** [i] is the first position of [q] that holds a dictionary with the
    values [v]. *)
Definition first_with_values (h : list dict) (q : list loc) (v : dict) (i : nat) (l : loc) : Prop :=
  q !! i = Some l /\ h !! l = Some v /\
  forall j l', j < i -> q !! j = Some l' -> h !! l' <> Some v.

(** [l] has left the queue: the object still exists, the queue does not
    refer to it. *)
Definition removed (l : loc) (s : state) : Prop :=
  l < length (heap s) /\ l ∉ queue s.

(** The state after [_save_queue]: write-through when the store takes the
    write, no change otherwise. *)
Definition saved (s : state) : state :=
  {| heap := heap s; queue := queue s;
     queue_file :=
       if writable (queue_file s)
       then {| contents := Some (Document (records_of (heap s) (queue s)));
               writable := writable (queue_file s) |}
       else queue_file s |}.

(** The dictionary after the three assignments of [mark_failure]. *)
Definition failed (error : string) (now : time) (d : dict) : dict :=
  set_error (Some error) (set_last_attempt (Some now) (set_retry_count (retry_count d + 1) d)).

(** ** States with two equal dictionaries *)

(** A store that does not exist yet, in a directory that can be written. *)
Definition no_file : store := {| contents := None; writable := true |}.

(** A process that has just built its queue on [no_file]. *)
Definition start : state := {| heap := []; queue := []; queue_file := no_file |}.

Definition twin : dict := fresh_dict "a.jpg" "" 0%Z.

(** After [add("a.jpg")] twice within one tick of the clock: two objects
    with the same values under every key. *)
Definition twins : state :=
  {| heap := [twin; twin]; queue := [0; 1];
     queue_file := {| contents := Some (Document [twin; twin]); writable := true |} |}.

(** The second of them alone, after [mark_success] on the first. *)
Definition twin_left : state :=
  {| heap := [twin; twin]; queue := [1];
     queue_file := {| contents := Some (Document [twin]); writable := true |} |}.

(** After [add("a.jpg")], [add("b.jpg")] and [mark_success] on the first:
    the removed dictionary has no equal in the queue. *)
Definition other_left : state :=
  {| heap := [twin; fresh_dict "b.jpg" "" 0%Z]; queue := [1];
     queue_file := {| contents := Some (Document [fresh_dict "b.jpg" "" 0%Z]);
                      writable := true |} |}.

(** The scenario of the specification: [add("a.jpg")], [add("b.jpg")],
    then a failed attempt on the first at time 100. *)
Definition scenario : list call :=
  [Add "a.jpg" "" 0%Z; Add "b.jpg" "" 0%Z; GetNext 100%Z; MarkFailure 0 "timeout" 100%Z].

Definition after_scenario : state :=
  {| heap := [failed "timeout" 100%Z twin; fresh_dict "b.jpg" "" 0%Z];
     queue := [0; 1];
     queue_file :=
       {| contents := Some (Document [failed "timeout" 100%Z twin; fresh_dict "b.jpg" "" 0%Z]);
          writable := true |} |}.

(** A state whose store mirrors the queue. *)
Definition mirrored (h : list dict) (q : list loc) : state :=
  {| heap := h; queue := q;
     queue_file := {| contents := Some (Document (records_of h q)); writable := true |} |}.

(** The twins after a failed attempt on the first at time 0, after a failed
    attempt on the second within the same tick, and after one more
    [mark_failure] at time 20. *)
Definition one_failed : state :=
  mirrored [failed "timeout" 0%Z twin; twin] [0; 1].

Definition both_failed : state :=
  mirrored [failed "timeout" 0%Z twin; failed "timeout" 0%Z twin] [0; 1].

Definition first_failed_again : state :=
  mirrored [failed "timeout" 20%Z (failed "timeout" 0%Z twin); failed "timeout" 0%Z twin] [0; 1].

(** "[mark_success] removes the given item": it returns normally, the
    total of [get_stats] is one less, and no later [get_next] returns the
    given item. *)
Definition mark_success_removes_given (s : state) (item : loc) : Prop :=
  exists s', mark_success item s = (Return tt, s') /\
    (exists n, total_of s = Return n /\ total_of s' = Return (n - 1)%Z) /\
    forall now, get_next now s' <> (Return (Some item), s').

(** "[mark_failure] updates the given item": it returns normally; the
    given dictionary has its retry count one higher, its last attempt at
    [now], its error set to the message and its other keys as before; and
    every other stored dictionary is as before. *)
Definition mark_failure_updates_given
    (s : state) (item : loc) (message : string) (now : time) : Prop :=
  exists s' d d', mark_failure item message now s = (Return tt, s') /\
    heap s !! item = Some d /\ heap s' !! item = Some d' /\
    retry_count d' = (retry_count d + 1)%Z /\
    last_attempt d' = Some now /\ error d' = Some message /\
    file_path d' = file_path d /\ caption d' = caption d /\ added_at d' = added_at d /\
    forall l, l ∈ queue s -> l <> item -> heap s' !! l = heap s !! l.

(** What the calls keep true of every stored dictionary: the retry count
    is not negative, and it is zero exactly when there was no attempt. *)
Definition counted (d : dict) : Prop :=
  (0 <= retry_count d)%Z /\ retry_invariant d.

Definition queue_invariant (s : state) : Prop :=
  forall l d, l ∈ queue s -> heap s !! l = Some d -> counted d.

(** A restart finds the queue again: building a queue on the store of [s],
    in any process, gives the records of [s] in the same order. *)
Definition recoverable (s : state) : Prop :=
  forall p, exists s2,
    __init__ (queue_file s) p = (Return tt, s2) /\
    records_of (heap s2) (queue s2) = records_of (heap s) (queue s).

(** ** The client ([pixelfed_client.py]) *)

(** A [pathlib.Path], by what the program asks of it: its text [str(p)]
    and [p.suffix.lower()]. *)
Record Path := {
  str : string;
  suffix_lower : string
}.

(** Python's [bool(s)] for a string. *)
Definition truthy (s : string) : bool := negb (String.eqb s "").

(** [PixelfedClient]: the two settings that [upload_and_post] reads, and
    what the methods that talk to the server answer.  [upload_media] and
    [create_post] give a JSON object or [None], and an error message or
    [None]; the object is a dictionary whose values are taken as strings. *)
Record PixelfedClient := {
  default_caption : string;
  cc_license : string;
  check_connection : bool * option string;
  upload_media : string -> option (gmap string string) * option string;
  create_post : list string -> string -> option (gmap string string) * option string
}.

(** Python's [bool(d)] for [d] a dictionary or [None]. *)
Definition truthy_dict (d : option (gmap string string)) : bool :=
  match d with
  | Some m => negb (bool_decide (m = ∅))
  | None => false
  end.

(** The list [caption_parts] that [upload_and_post] builds. *)
Definition caption_parts (self : PixelfedClient) (caption : string) : list string :=
  let caption_parts := [] in
  let caption_parts := if truthy caption then caption_parts ++ [caption] else caption_parts in
  let caption_parts :=
    if truthy (default_caption self) then caption_parts ++ [default_caption self]
    else caption_parts in
  let caption_parts :=
    if truthy (cc_license self) then caption_parts ++ [cc_license self]
    else caption_parts in
  caption_parts.

(** [upload_and_post(file_path, caption)]; [file_path] stands for the path
    as text. *)
Definition upload_and_post (self : PixelfedClient) (file_path caption : string)
    : bool * option string :=
  let (media, error) := upload_media self file_path in
  if negb (truthy_dict media) then (false, error)
  else
    let media_id := default "" (from_option (fun m => m !! "id") None media) in
    if negb (truthy media_id)
    then (false, Some (String.append "No media ID returned for " file_path))
    else
      let full_caption := String.concat " " (caption_parts self caption) in
      let (post, error) := create_post self [media_id] full_caption in
      if negb (truthy_dict post) then (false, error)
      else (true, None).

(** [_get_mime_type(file_path)]: the look-up of [mime_types.get(ext, ..)],
    key by key. *)
Definition _get_mime_type (file_path : Path) : string :=
  let ext := suffix_lower file_path in
  if String.eqb ext ".jpg" then "image/jpeg"
  else if String.eqb ext ".jpeg" then "image/jpeg"
  else if String.eqb ext ".png" then "image/png"
  else if String.eqb ext ".gif" then "image/gif"
  else if String.eqb ext ".webp" then "image/webp"
  else "application/octet-stream".

(** ** The watcher and the poll loop ([main.py]) *)

Definition IMAGE_EXTENSIONS : list string :=
  [".jpg"; ".jpeg"; ".png"; ".gif"; ".webp"].

(** A watchdog event, with [Path(event.src_path)] already built. *)
Record event := {
  is_directory : bool;
  src_path : Path
}.

(** [ImageUploadHandler.on_created(event)]: the set [processed_files] goes
    in and comes out; [now] is the clock after the [time.sleep(1)]. *)
Definition on_created (processed_files : gset string) (event : event) (now : time)
    : M (gset string) :=
  if is_directory event then ret processed_files
  else
    let file_path := src_path event in
    if negb (bool_decide (suffix_lower file_path ∈ IMAGE_EXTENSIONS)) then ret processed_files
    else if bool_decide (str file_path ∈ processed_files) then ret processed_files
    else
      add (str file_path) "" now ;;
      ret ({[ str file_path ]} ∪ processed_files).

(** [scan_existing_files(watch_folder)], on what [watch_folder.iterdir()]
    lists: each entry with the answer of its [is_file()]. *)
Definition scan_existing_files (iterdir : list (Path * bool)) : gset string :=
  fold_left
    (fun existing_files entry =>
       let file_path := fst entry in
       if snd entry && bool_decide (suffix_lower file_path ∈ IMAGE_EXTENSIONS)
       then {[ str file_path ]} ∪ existing_files
       else existing_files)
    iterdir ∅.

(** [error or "Unknown error"] *)
Definition or_unknown (error : option string) : string :=
  match error with
  | Some e => if truthy e then e else "Unknown error"
  | None => "Unknown error"
  end.

(** [process_upload_queue(upload_queue, client)]; [now] is the clock that
    [get_next] reads and [now'] the one that [mark_failure] reads after the
    upload.  [get_next] only returns references to objects, so the [None]
    branch of the look-up is never taken. *)
Definition process_upload_queue (client : PixelfedClient) (now now' : time) : M unit :=
  n <- size ;;
  if (n =? 0)%Z then ret tt
  else
    let (is_connected, error) := check_connection client in
    if negb is_connected then ret tt
    else
      item <- get_next now ;;
      match item with
      | None => ret tt
      | Some item =>
          s <- get_state ;;
          match heap s !! item with
          | None => ret tt
          | Some d =>
              let (success, error) := upload_and_post client (file_path d) (caption d) in
              if success then mark_success item
              else
                mark_failure item (or_unknown error) now' ;;
                get_stats ;;
                ret tt
          end
      end.

(** What happens while the program runs: the watcher reports a file, or the
    loop of [main] makes one turn. *)
Inductive step :=
  | Created (e : event) (now : time)
  | Poll (client : PixelfedClient) (now now' : time).

Fixpoint run_program (steps : list step) (processed_files : gset string)
    : M (gset string) :=
  match steps with
  | [] => ret processed_files
  | Created e now :: rest =>
      processed_files <- on_created processed_files e now ;;
      run_program rest processed_files
  | Poll client now now' :: rest =>
      process_upload_queue client now now' ;;
      run_program rest processed_files
  end.

(** * Proofs *)

Ltac run_py :=
  unfold bind, ret, raise, try_except, get_state, set_queue, set_heap,
    set_contents, new_dict, list_getitem in *; simpl in *.

(** ** [list.index] and [list.remove] *)

Lemma dict_eq_true_iff h a b va vb :
  h !! a = Some va -> h !! b = Some vb ->
  dict_eq h a b = true <-> va = vb.
Proof.
  intros Ha Hb. unfold dict_eq. rewrite Ha, Hb.
  rewrite orb_true_iff, !bool_decide_eq_true. split.
  - intros [-> | ->]; congruence.
  - auto.
Qed.

Lemma dict_eq_refl h a : dict_eq h a a = true.
Proof. unfold dict_eq. rewrite bool_decide_eq_true_2; auto. Qed.

Lemma list_index_Some h q x i :
  list_index h q x = Some i <->
  exists l, q !! i = Some l /\ dict_eq h l x = true /\
    forall j l', j < i -> q !! j = Some l' -> dict_eq h l' x = false.
Proof.
  revert i. induction q as [|a q IH]; intros i; simpl.
  - split; [discriminate | intros (l & Hl & _); discriminate].
  - destruct (dict_eq h a x) eqn:E.
    + split.
      * intros [= <-]. exists a. split; [reflexivity|]. split; [assumption|]. lia.
      * intros (l & Hl & Hx & Hlt). destruct i as [|i]; [reflexivity|].
        specialize (Hlt 0 a ltac:(lia) eq_refl). congruence.
    + destruct (list_index h q x) as [k|]; simpl.
      * split.
        -- intros [= <-]. destruct (proj1 (IH k) eq_refl) as (l & Hl & Hx & Hlt).
           exists l. split; [assumption|]. split; [assumption|].
           intros [|j] l' Hj Hl'; simpl in Hl'; [congruence|]. apply (Hlt j); [lia|assumption].
        -- intros (l & Hl & Hx & Hlt). destruct i as [|i]; simpl in Hl; [congruence|].
           f_equal. assert (Some k = Some i) as [= ->]; [|reflexivity].
           apply IH. exists l. split; [assumption|]. split; [assumption|].
           intros j l' Hj Hl'. apply (Hlt (S j)); [lia|assumption].
      * split; [discriminate|].
        intros (l & Hl & Hx & Hlt). destruct i as [|i]; simpl in Hl; [congruence|].
        exfalso. assert (@None nat = Some i) as Hc; [|discriminate].
        apply IH. exists l. split; [assumption|]. split; [assumption|].
        intros j l' Hj Hl'. apply (Hlt (S j)); [lia|assumption].
Qed.

Lemma list_index_None h q x :
  list_index h q x = None <-> forall l, l ∈ q -> dict_eq h l x = false.
Proof.
  induction q as [|a q IH]; simpl.
  - split; [|reflexivity]. intros _ l Hl. inversion Hl.
  - destruct (dict_eq h a x) eqn:E.
    + split; [discriminate|]. intros H. specialize (H a ltac:(left)). congruence.
    + destruct (list_index h q x) as [n|]; simpl.
      * split; [discriminate|]. intros H.
        assert (Some n = None) as Hc; [|discriminate].
        apply IH. intros l Hl. apply H. now right.
      * split; [|reflexivity]. intros _ l Hl.
        apply elem_of_cons in Hl as [-> | Hl]; [assumption|]. now apply IH.
Qed.

Lemma list_remove_index h q x :
  list_remove h q x = (fun i => delete i q) <$> list_index h q x.
Proof.
  induction q as [|a q IH]; simpl; [reflexivity|].
  destruct (dict_eq h a x); [reflexivity|].
  rewrite IH. destruct (list_index h q x); reflexivity.
Qed.

(** ** What each method does to the state *)

Lemma save_queue_run s : _save_queue s = (Return tt, saved s).
Proof.
  unfold _save_queue, json_dump, saved. run_py.
  destruct s as [h q [c w]]; simpl. destruct w; reflexivity.
Qed.

Lemma mark_success_found s x i :
  list_index (heap s) (queue s) x = Some i ->
  mark_success x s =
    (Return tt,
     saved {| heap := heap s; queue := delete i (queue s); queue_file := queue_file s |}).
Proof.
  intros Hi. unfold mark_success. run_py.
  rewrite list_remove_index, Hi. simpl. rewrite save_queue_run. reflexivity.
Qed.

Lemma mark_success_not_found s x :
  list_index (heap s) (queue s) x = None ->
  mark_success x s = (Return tt, s).
Proof.
  intros Hi. unfold mark_success. run_py.
  rewrite list_remove_index, Hi. reflexivity.
Qed.

Lemma mark_failure_found s x e now i l d :
  list_index (heap s) (queue s) x = Some i ->
  queue s !! i = Some l ->
  heap s !! l = Some d ->
  mark_failure x e now s =
    (Return tt,
     saved {| heap := <[l := failed e now d]> (heap s); queue := queue s;
              queue_file := queue_file s |}).
Proof.
  intros Hi Hl Hd. unfold mark_failure, update_dict. run_py.
  rewrite Hi, Hl. simpl. rewrite Hd. simpl.
  assert (l < length (heap s)) as Hlt by (eapply lookup_lt_Some; eassumption).
  rewrite list_lookup_insert_eq by assumption. simpl.
  rewrite list_lookup_insert_eq by (rewrite length_insert; assumption). simpl.
  rewrite !list_insert_insert_eq, save_queue_run. reflexivity.
Qed.

Lemma mark_failure_not_found s x e now :
  list_index (heap s) (queue s) x = None ->
  mark_failure x e now s = (Return tt, s).
Proof.
  intros Hi. unfold mark_failure. run_py. rewrite Hi. reflexivity.
Qed.

Lemma add_run s fp c now :
  add fp c now s =
    (Return tt,
     saved {| heap := heap s ++ [fresh_dict fp c now];
              queue := queue s ++ [length (heap s)];
              queue_file := queue_file s |}).
Proof. unfold add. run_py. rewrite save_queue_run. reflexivity. Qed.

Lemma get_next_run s now :
  get_next now s = (Return (get_next_loop (heap s) now (queue s)), s).
Proof. unfold get_next. run_py. destruct (queue s); reflexivity. Qed.

Lemma total_of_run s : total_of s = Return (Z.of_nat (length (queue s))).
Proof. unfold total_of, get_stats. run_py. destruct (queue s); reflexivity. Qed.

(** ** Matching is on values *)

Lemma dict_eq_value h l x v :
  h !! x = Some v -> dict_eq h l x = true <-> h !! l = Some v.
Proof.
  intros Hx. unfold dict_eq. rewrite Hx, orb_true_iff, bool_decide_eq_true. split.
  - intros [-> | H]; [assumption|].
    destruct (h !! l) as [vl|]; [|discriminate].
    apply bool_decide_eq_true in H. congruence.
  - intros ->. right. now apply bool_decide_eq_true.
Qed.

Lemma dict_eq_value_false h l x v :
  h !! x = Some v -> dict_eq h l x = false <-> h !! l <> Some v.
Proof.
  intros Hx. rewrite <- (dict_eq_value h l x v Hx).
  destruct (dict_eq h l x); split; congruence.
Qed.

Lemma list_index_first h q x v i :
  h !! x = Some v ->
  list_index h q x = Some i <-> exists l, first_with_values h q v i l.
Proof.
  intros Hx. rewrite list_index_Some. unfold first_with_values.
  split; intros (l & Hl & Hv & Hlt); exists l; (split; [assumption|]).
  - split; [now apply (dict_eq_value h l x v Hx)|].
    intros j l' Hj Hl'. apply (dict_eq_value_false h l' x v Hx). eauto.
  - split; [now apply (dict_eq_value h l x v Hx)|].
    intros j l' Hj Hl'. apply (dict_eq_value_false h l' x v Hx). eauto.
Qed.

Lemma list_index_absent h q x v :
  h !! x = Some v ->
  list_index h q x = None <-> forall l, l ∈ q -> h !! l <> Some v.
Proof.
  intros Hx. rewrite list_index_None.
  split; intros H l Hl; apply (dict_eq_value_false h l x v Hx); auto.
Qed.

(** ** The scan of [get_next] *)

Lemma get_next_loop_head h now a q :
  (eligible_at h now a -> get_next_loop h now (a :: q) = Some a) /\
  (~ eligible_at h now a -> get_next_loop h now (a :: q) = get_next_loop h now q).
Proof.
  unfold eligible_at, eligible. simpl.
  destruct (h !! a) as [d|] eqn:Hd.
  - destruct (last_attempt d) as [t|] eqn:Ht.
    + destruct (now - t >=? backoff_delay (retry_count d))%Z eqn:E.
      * split; [reflexivity|]. intros H. exfalso. apply H. exists d.
        rewrite Ht. split; [reflexivity|]. apply Z.geb_le in E. lia.
      * split; [|reflexivity]. intros (d' & [= <-] & H). rewrite Ht in H.
        assert ((now - t >=? backoff_delay (retry_count d))%Z = true) as Hc
          by (apply Z.geb_le; lia).
        congruence.
    + split; [reflexivity|]. intros H. exfalso. apply H. exists d. now rewrite Ht.
  - split; [|reflexivity]. intros (d & [=] & _).
Qed.

Lemma eligible_at_dec h now l : {eligible_at h now l} + {~ eligible_at h now l}.
Proof.
  unfold eligible_at, eligible. destruct (h !! l) as [d|].
  - destruct (last_attempt d) as [t|] eqn:Ht.
    + destruct (Z_ge_dec (now - t) (backoff_delay (retry_count d))) as [H|H].
      * left. exists d. now rewrite Ht.
      * right. intros (d' & [= <-] & H'). now rewrite Ht in H'.
    + left. exists d. now rewrite Ht.
  - right. intros (d & [=] & _).
Qed.

Lemma get_next_loop_Some h now q l :
  get_next_loop h now q = Some l <->
  exists i, q !! i = Some l /\ eligible_at h now l /\
    forall j l', j < i -> q !! j = Some l' -> ~ eligible_at h now l'.
Proof.
  induction q as [|a q IH].
  - simpl. split; [discriminate | intros (i & Hi & _); discriminate].
  - destruct (get_next_loop_head h now a q) as [Hyes Hno].
    destruct (eligible_at_dec h now a) as [Ha|Ha].
    + rewrite (Hyes Ha). split.
      * intros [= <-]. exists 0. split; [reflexivity|]. split; [assumption|]. lia.
      * intros ([|i] & Hi & Hl & Hlt); simpl in Hi; [congruence|].
        exfalso. apply (Hlt 0 a); [lia | reflexivity | assumption].
    + rewrite (Hno Ha), IH. split.
      * intros (i & Hi & Hl & Hlt). exists (S i). split; [assumption|]. split; [assumption|].
        intros [|j] l' Hj Hl'; simpl in Hl'; [congruence|]. apply (Hlt j); [lia|assumption].
      * intros ([|i] & Hi & Hl & Hlt); simpl in Hi; [congruence|].
        exists i. split; [assumption|]. split; [assumption|].
        intros j l' Hj Hl'. apply (Hlt (S j)); [lia|assumption].
Qed.

Lemma get_next_loop_None h now q :
  get_next_loop h now q = None <-> forall l, l ∈ q -> ~ eligible_at h now l.
Proof.
  induction q as [|a q IH].
  - simpl. split; [|reflexivity]. intros _ l Hl. inversion Hl.
  - destruct (get_next_loop_head h now a q) as [Hyes Hno].
    destruct (eligible_at_dec h now a) as [Ha|Ha].
    + rewrite (Hyes Ha). split; [discriminate|].
      intros H. exfalso. apply (H a); [left | assumption].
    + rewrite (Hno Ha), IH. split.
      * intros H l Hl. apply elem_of_cons in Hl as [-> | Hl]; auto.
      * intros H l Hl. apply H. now right.
Qed.

(** ** The claims about [get_next] *)

(** C1.  For every state and every current time, [get_next] returns
    normally; it returns the first stored item, in insertion order, that is
    eligible, and none exactly when the queue is empty or no stored item is
    eligible.  An item whose [last_attempt] is null is always eligible; an
    item with [retry_count = k >= 1] and a last attempt at [t] is eligible
    exactly when [now - t >= backoff_delay k]. *)
Theorem get_next_first_eligible (s : state) (now : time) :
  exists r, get_next now s = (Return r, s) /\
    (forall l, r = Some l <->
       exists i, queue s !! i = Some l /\ eligible_at (heap s) now l /\
         forall j l', j < i -> queue s !! j = Some l' -> ~ eligible_at (heap s) now l') /\
    (r = None <->
       queue s = [] \/ forall l, l ∈ queue s -> ~ eligible_at (heap s) now l) /\
    (forall d, last_attempt d = None -> eligible now d) /\
    (forall d k t, retry_count d = k -> (1 <= k)%Z -> last_attempt d = Some t ->
       eligible now d <-> (now - t >= backoff_delay k)%Z).
Proof.
  exists (get_next_loop (heap s) now (queue s)).
  split; [apply get_next_run|].
  split; [intros l; apply get_next_loop_Some|].
  split.
  - rewrite get_next_loop_None. split; [auto|].
    intros [Hq | H]; [|assumption]. rewrite Hq. intros l Hl. inversion Hl.
  - split.
    + intros d Hd. unfold eligible. now rewrite Hd.
    + intros d k t <- _ Ht. unfold eligible. now rewrite Ht.
Qed.

Example scenario_runs : run scenario start = (Return tt, after_scenario).
Proof. reflexivity. Qed.

Example scenario_in_backoff :
  get_next 105%Z after_scenario = (Return (Some 1), after_scenario).
Proof. reflexivity. Qed.

Example scenario_backoff_elapsed :
  get_next 111%Z after_scenario = (Return (Some 0), after_scenario).
Proof. reflexivity. Qed.

Example empty_queue :
  get_next 0%Z start = (Return None, start) /\
  get_stats start =
    (Return {| total := 0; never_attempted := 0; retrying := 0; max_retry_count := 0 |},
     start).
Proof. split; reflexivity. Qed.

Example scenario_stats :
  get_stats after_scenario =
    (Return {| total := 2; never_attempted := 1; retrying := 1; max_retry_count := 1 |},
     after_scenario).
Proof. reflexivity. Qed.

Lemma get_next_first_eligible_witness :
  exists r, get_next 105%Z after_scenario = (Return r, after_scenario) /\ r = Some 1.
Proof.
  destruct (get_next_first_eligible after_scenario 105%Z) as (r & Hrun & Hsome & _).
  exists r. split; [exact Hrun|].
  apply Hsome. exists 1. split; [reflexivity|]. split.
  - eexists. split; [reflexivity | exact I].
  - intros [|j] l' Hj Hl'; [|lia].
    injection Hl' as <-. intros (d & Hd & He).
    injection Hd as <-. vm_compute in He. apply He. reflexivity.
Defined.

(** C2.  The delay that [get_next] uses is the fixed table: 10, 30, 60 and
    120 seconds for retry counts 1 to 4, 300 seconds for every retry count
    from 5 on, and never more than 300 seconds whatever the retry count. *)
Theorem backoff_delay_table :
  backoff_delay 1 = 10%Z /\ backoff_delay 2 = 30%Z /\
  backoff_delay 3 = 60%Z /\ backoff_delay 4 = 120%Z /\
  (forall k, (5 <= k)%Z -> backoff_delay k = 300%Z) /\
  (forall k, (backoff_delay k <= 300)%Z).
Proof.
  repeat (split; [reflexivity|]). split.
  - intros k Hk. unfold backoff_delay.
    repeat (match goal with |- context [(k =? ?n)%Z] =>
              destruct (Z.eqb_spec k n); [lia|] end).
    reflexivity.
  - intros k. unfold backoff_delay.
    repeat (match goal with |- context [(k =? ?n)%Z] =>
              destruct (Z.eqb_spec k n) end); lia.
Qed.

Lemma backoff_delay_table_witness : backoff_delay 7 = 300%Z.
Proof.
  apply (proj1 (proj2 (proj2 (proj2 (proj2 backoff_delay_table)))) 7%Z).
  lia.
Defined.

(** C3.  [get_next] leaves the state as it found it, and two calls in a row
    at the same current time return the same item (or both none). *)
Theorem get_next_idempotent_peek (s : state) (now : time) :
  exists r,
    get_next now s = (Return r, s) /\
    (r1 <- get_next now ;; r2 <- get_next now ;; ret (r1, r2)) s = (Return (r, r), s).
Proof.
  exists (get_next_loop (heap s) now (queue s)).
  split; [apply get_next_run|].
  unfold bind. rewrite !get_next_run. reflexivity.
Qed.

(** ** What a call does to a well-formed state *)

Lemma wf_lookup s l : wf s -> l ∈ queue s -> exists d, heap s !! l = Some d.
Proof.
  intros [_ Hlt] Hl. rewrite Forall_forall in Hlt.
  apply lookup_lt_is_Some_2. auto.
Qed.

Lemma exec_effect c s :
  wf s ->
  exists s', exec c s = (Return tt, s') /\ wf s' /\
    length (heap s) <= length (heap s') /\
    (forall l, l ∈ queue s' ->
       l ∈ queue s \/
       (length (heap s) <= l /\
        exists fp cap now, heap s' !! l = Some (fresh_dict fp cap now))) /\
    (forall l d', l ∈ queue s' -> l ∈ queue s -> heap s' !! l = Some d' ->
       exists d, heap s !! l = Some d /\
         (d' = d \/ exists e now, d' = failed e now d)).
Proof.
  intros Hwf. pose proof Hwf as [Hnd Hlt]. destruct c as [fp cap now|now|x|x e now|d]; simpl.
  - (* add *)
    rewrite add_run. eexists. split; [reflexivity|]. simpl.
    rewrite Forall_forall in Hlt.
    split; [|split; [|split]].
    + split; simpl.
      * apply NoDup_app. split; [assumption|]. split; [|apply NoDup_singleton].
        intros l Hl Hl'. apply list_elem_of_singleton in Hl'. apply Hlt in Hl. lia.
      * rewrite Forall_forall. intros l Hl. rewrite length_app. simpl.
        apply elem_of_app in Hl as [Hl|Hl]; [apply Hlt in Hl; lia|].
        apply list_elem_of_singleton in Hl. lia.
    + rewrite length_app. lia.
    + intros l Hl. apply elem_of_app in Hl as [Hl|Hl]; [now left|right].
      apply list_elem_of_singleton in Hl. subst l. split; [lia|].
      exists fp, cap, now. now rewrite list_lookup_middle.
    + intros l d' _ Hl Hd'. exists d'. split; [|now left].
      rewrite lookup_app_l in Hd' by auto. assumption.
  - (* get_next *)
    unfold bind. rewrite get_next_run. unfold ret. eexists. split; [reflexivity|].
    split; [assumption|]. split; [lia|]. split; [auto|]. eauto.
  - (* mark_success *)
    destruct (list_index (heap s) (queue s) x) as [i|] eqn:Hi.
    + rewrite (mark_success_found s x i Hi). eexists. split; [reflexivity|]. simpl.
      split; [|split; [lia|split]].
      * split; simpl.
        -- eapply sublist_NoDup; [eassumption | apply sublist_delete].
        -- now apply Forall_delete.
      * intros l Hl. left. eapply list_elem_of_delete_inv; eassumption.
      * intros l d' _ _ Hd'. eauto.
    + rewrite (mark_success_not_found s x Hi). eexists. split; [reflexivity|].
      split; [assumption|]. split; [lia|]. split; [auto|]. eauto.
  - (* mark_failure *)
    destruct (list_index (heap s) (queue s) x) as [i|] eqn:Hi.
    + pose proof Hi as Hi'. apply list_index_Some in Hi' as (l & Hl & _).
      destruct (wf_lookup s l Hwf) as [d Hd]; [eapply list_elem_of_lookup_2; eassumption|].
      rewrite (mark_failure_found s x e now i l d Hi Hl Hd).
      eexists. split; [reflexivity|]. simpl.
      split; [|split; [rewrite length_insert; lia|split]].
      * split; simpl; [assumption|]. now rewrite length_insert.
      * auto.
      * intros l0 d' _ Hl0 Hd'. destruct (decide (l = l0)) as [<-|Hne].
        -- exists d. split; [assumption|]. right. exists e, now.
           rewrite list_lookup_insert_eq in Hd' by (eapply lookup_lt_Some; eassumption).
           congruence.
        -- rewrite list_lookup_insert_ne in Hd' by assumption. eauto.
    + rewrite (mark_failure_not_found s x e now Hi). eexists. split; [reflexivity|].
      split; [assumption|]. split; [lia|]. split; [auto|]. eauto.
  - (* a dictionary of the caller's *)
    run_py. eexists. split; [reflexivity|]. simpl.
    rewrite Forall_forall in Hlt.
    split; [|split; [rewrite length_app; lia|split]].
    + split; simpl; [assumption|]. rewrite Forall_forall. intros l Hl.
      rewrite length_app. apply Hlt in Hl. lia.
    + auto.
    + intros l d' _ Hl Hd'. exists d'. split; [|now left].
      rewrite lookup_app_l in Hd' by auto. assumption.
Qed.

Lemma run_invariant (P : state -> Prop) :
  (forall c s s', wf s -> P s -> exec c s = (Return tt, s') -> P s') ->
  forall cs s, wf s -> P s ->
    exists s', run cs s = (Return tt, s') /\ wf s' /\ P s'.
Proof.
  intros Hstep cs. induction cs as [|c cs IH]; intros s Hwf HP; simpl.
  - exists s. auto.
  - destruct (exec_effect c s Hwf) as (s1 & Hrun & Hwf1 & _).
    unfold bind. rewrite Hrun.
    apply IH; [assumption|]. apply (Hstep c s s1); assumption.
Qed.

Lemma removed_exec l c s s' :
  wf s -> removed l s -> exec c s = (Return tt, s') -> removed l s'.
Proof.
  intros Hwf [Hlt Hnot] Hrun.
  destruct (exec_effect c s Hwf) as (s1 & Hrun1 & _ & Hlen & Hq & _).
  rewrite Hrun in Hrun1. assert (s' = s1) as -> by congruence.
  split; [lia|]. intros Hl. apply Hq in Hl as [Hl | [Hl _]]; [auto | lia].
Qed.

Lemma not_elem_of_delete (q : list loc) i l :
  NoDup q -> q !! i = Some l -> l ∉ delete i q.
Proof.
  intros Hnd Hi Hl. apply list_elem_of_lookup_1 in Hl as [j Hj].
  destruct (decide (j < i)) as [Hlt|Hge].
  - rewrite list_lookup_delete_lt in Hj by assumption.
    pose proof (NoDup_lookup q i j l Hnd Hi Hj). lia.
  - rewrite list_lookup_delete_ge in Hj by lia.
    pose proof (NoDup_lookup q i (S j) l Hnd Hi Hj). lia.
Qed.

(** ** [mark_success] *)

Lemma twins_reachable :
  run [Add "a.jpg" "" 0%Z; Add "a.jpg" "" 0%Z] start = (Return tt, twins).
Proof. reflexivity. Qed.

Lemma wf_twins : wf twins.
Proof. apply (bool_decide_unpack _). vm_compute. exact I. Qed.

(** C4, as stated, fails.  With two stored dictionaries of equal values,
    [mark_success] on the second removes the first; the given one stays in
    the queue and is what [get_next] returns next. *)
Lemma mark_success_keeps_later_twin :
  run [Add "a.jpg" "" 0%Z; Add "a.jpg" "" 0%Z] start = (Return tt, twins) /\
  wf twins /\ 1 ∈ queue twins /\
  ~ mark_success_removes_given twins 1.
Proof.
  split; [reflexivity|]. split; [apply wf_twins|].
  split; [apply list_elem_of_lookup; exists 1; reflexivity|].
  intros (s' & Hrun & _ & Hnever).
  assert (mark_success 1 twins = (Return tt, twin_left)) as Hr by reflexivity.
  rewrite Hr in Hrun. assert (s' = twin_left) as -> by congruence.
  apply (Hnever 0%Z). reflexivity.
Qed.

Lemma get_next_in_queue s now l :
  get_next now s = (Return (Some l), s) -> l ∈ queue s.
Proof.
  rewrite get_next_run. intros H.
  assert (get_next_loop (heap s) now (queue s) = Some l) as Hl by congruence.
  apply get_next_loop_Some in Hl as (i & Hi & _).
  eapply list_elem_of_lookup_2; eassumption.
Qed.

(** C4, amended.  [mark_success] looks for the first stored dictionary with
    the field values of the given one -- the given dictionary itself when it
    is stored and no earlier one has its values.  When there is one, it is
    removed: the call returns normally, the total of [get_stats] is one
    less, and whatever is called afterwards, [get_next] never returns the
    removed dictionary.  When there is none, the call returns normally and
    the state is as before. *)
Theorem mark_success_removes_first_equal (s : state) (item : loc) (v : dict) :
  wf s -> heap s !! item = Some v ->
  (forall i l, first_with_values (heap s) (queue s) v i l ->
     exists s', mark_success item s = (Return tt, s') /\
       heap s' = heap s /\ queue s' = delete i (queue s) /\
       (exists n, total_of s = Return n /\ total_of s' = Return (n - 1)%Z) /\
       (forall cs s'' now, run cs s' = (Return tt, s'') ->
          get_next now s'' <> (Return (Some l), s''))) /\
  ((forall l, l ∈ queue s -> heap s !! l <> Some v) ->
     mark_success item s = (Return tt, s)).
Proof.
  intros Hwf Hv. split.
  - intros i l Hfirst.
    assert (list_index (heap s) (queue s) item = Some i) as Hi
      by (apply (list_index_first _ _ _ v); eauto).
    destruct Hfirst as (Hl & Hlv & _).
    eexists. split; [apply (mark_success_found s item i Hi)|].
    split; [reflexivity|]. split; [reflexivity|]. split.
    + exists (Z.of_nat (length (queue s))). rewrite !total_of_run. simpl.
      split; [reflexivity|]. f_equal.
      rewrite length_delete by eauto.
      apply lookup_lt_Some in Hl. lia.
    + intros cs s'' now Hrun Hnext.
      set (s' := saved {| heap := heap s; queue := delete i (queue s);
                          queue_file := queue_file s |}) in *.
      assert (wf s') as Hwf'.
      { destruct Hwf as [Hnd Hlt]. split; simpl.
        - eapply sublist_NoDup; [eassumption | apply sublist_delete].
        - now apply Forall_delete. }
      assert (removed l s') as Hrem.
      { split; simpl.
        - eapply lookup_lt_Some; eassumption.
        - apply not_elem_of_delete; [apply Hwf | assumption]. }
      destruct (run_invariant (removed l) (removed_exec l) cs s' Hwf' Hrem)
        as (s3 & Hrun3 & _ & _ & Hnot).
      assert (s'' = s3) as -> by congruence.
      apply Hnot. eapply get_next_in_queue; eassumption.
  - intros Hnone. apply mark_success_not_found.
    now apply (list_index_absent _ _ _ v).
Qed.

Lemma mark_success_removes_first_equal_witness :
  exists s', mark_success 1 twins = (Return tt, s') /\ queue s' = [1].
Proof.
  destruct (proj1 (mark_success_removes_first_equal twins 1 twin wf_twins eq_refl) 0 0)
    as (s' & Hrun & _ & Hq & _).
  - split; [reflexivity|]. split; [reflexivity|]. intros j l' Hj. lia.
  - exists s'. split; [exact Hrun | exact Hq].
Defined.

(** ** [mark_failure] *)

(** C5, as stated, fails.  With two stored dictionaries of equal values,
    [mark_failure] on the second updates the first and leaves the given one
    as it was. *)
Lemma mark_failure_misses_later_twin :
  run [Add "a.jpg" "" 0%Z; Add "a.jpg" "" 0%Z] start = (Return tt, twins) /\
  wf twins /\ 1 ∈ queue twins /\
  (exists s', mark_failure 1 "timeout" 5%Z twins = (Return tt, s') /\
     heap s' !! 0 = Some (failed "timeout" 5%Z twin) /\
     heap s' !! 1 = Some twin) /\
  ~ mark_failure_updates_given twins 1 "timeout" 5%Z.
Proof.
  split; [reflexivity|]. split; [apply wf_twins|].
  split; [apply list_elem_of_lookup; exists 1; reflexivity|].
  split.
  - eexists. split; [reflexivity|]. split; reflexivity.
  - intros (s' & d & d' & Hrun & Hd & Hd' & Hrc & _).
    assert (snd (mark_failure 1 "timeout" 5%Z twins) = s') as Hs by (rewrite Hrun; reflexivity).
    rewrite <- Hs in Hd'. vm_compute in Hd, Hd'.
    injection Hd as <-. injection Hd' as <-. discriminate Hrc.
Qed.

(** C5, amended.  [mark_failure] looks for the first stored dictionary with
    the field values of the given one -- the given dictionary itself when it
    is stored and no earlier one has its values.  When there is one, the
    call returns normally and that dictionary has its retry count one
    higher, its last attempt at the current time, its error set to the
    message, and its file path, caption and time of adding as before; the
    queue is the same list and every other dictionary is as before.  When
    there is none, the call returns normally and the state is as before. *)
Theorem mark_failure_updates_first_equal
    (s : state) (item : loc) (v : dict) (message : string) (now : time) :
  heap s !! item = Some v ->
  (forall i l, first_with_values (heap s) (queue s) v i l ->
     exists s' d', mark_failure item message now s = (Return tt, s') /\
       queue s' = queue s /\ heap s' !! l = Some d' /\
       retry_count d' = (retry_count v + 1)%Z /\
       last_attempt d' = Some now /\ error d' = Some message /\
       file_path d' = file_path v /\ caption d' = caption v /\ added_at d' = added_at v /\
       (forall l', l' <> l -> heap s' !! l' = heap s !! l')) /\
  ((forall l, l ∈ queue s -> heap s !! l <> Some v) ->
     mark_failure item message now s = (Return tt, s)).
Proof.
  intros Hv. split.
  - intros i l Hfirst.
    assert (list_index (heap s) (queue s) item = Some i) as Hi
      by (apply (list_index_first _ _ _ v); eauto).
    destruct Hfirst as (Hl & Hlv & _).
    eexists. exists (failed message now v).
    split; [apply (mark_failure_found s item message now i l v Hi Hl Hlv)|].
    split; [reflexivity|]. simpl. split.
    + apply list_lookup_insert_eq. eapply lookup_lt_Some; eassumption.
    + repeat (split; [reflexivity|]).
      intros l' Hne. apply list_lookup_insert_ne. congruence.
  - intros Hnone. apply mark_failure_not_found.
    now apply (list_index_absent _ _ _ v).
Qed.

Lemma mark_failure_updates_first_equal_witness :
  exists s' d', mark_failure 1 "timeout" 5%Z twins = (Return tt, s') /\
    heap s' !! 0 = Some d' /\ retry_count d' = 1%Z /\ heap s' !! 1 = Some twin.
Proof.
  destruct (proj1 (mark_failure_updates_first_equal twins 1 twin "timeout" 5%Z eq_refl) 0 0)
    as (s' & d' & Hrun & _ & Hd' & Hrc & _ & _ & _ & _ & _ & Hother).
  - split; [reflexivity|]. split; [reflexivity|]. intros j l' Hj. lia.
  - exists s', d'. split; [exact Hrun|]. split; [exact Hd'|]. split; [exact Hrc|].
    exact (eq_trans (Hother 1 ltac:(discriminate)) eq_refl).
Defined.

(** C6, as stated, fails.  After [mark_success] on the first of two stored
    dictionaries of equal values, [mark_failure] on that removed dictionary
    finds the second one and updates it. *)
Lemma mark_failure_hits_remaining_twin :
  run [Add "a.jpg" "" 0%Z; Add "a.jpg" "" 0%Z; GetNext 0%Z; MarkSuccess 0] start
    = (Return tt, twin_left) /\
  wf twin_left /\ removed 0 twin_left /\
  exists s', mark_failure 0 "timeout" 5%Z twin_left = (Return tt, s') /\
    heap s' !! 1 = Some (failed "timeout" 5%Z twin) /\
    s' <> twin_left.
Proof.
  split; [reflexivity|].
  split; [apply (bool_decide_unpack _); vm_compute; exact I|].
  split.
  - split; [simpl; lia|]. intros H. apply list_elem_of_singleton in H. discriminate.
  - eexists. split; [reflexivity|]. split; [reflexivity|].
    intros H. apply (f_equal (fun s => retry_count <$> heap s !! 1)) in H.
    vm_compute in H. discriminate.
Qed.

(** C6, amended.  [mark_failure] on a dictionary that has been removed from
    the queue returns normally and leaves the whole state as it was,
    provided no dictionary still in the queue has the field values of the
    removed one. *)
Theorem mark_failure_on_removed_item
    (s : state) (item : loc) (v : dict) (message : string) (now : time) :
  removed item s -> heap s !! item = Some v ->
  (forall l, l ∈ queue s -> heap s !! l <> Some v) ->
  mark_failure item message now s = (Return tt, s).
Proof.
  intros _ Hv Hnone. apply mark_failure_not_found.
  now apply (list_index_absent _ _ _ v).
Qed.

Lemma mark_failure_on_removed_item_witness :
  mark_failure 0 "timeout" 5%Z other_left = (Return tt, other_left).
Proof.
  apply (mark_failure_on_removed_item other_left 0 twin "timeout" 5%Z).
  - split; [simpl; lia|]. intros H. apply list_elem_of_singleton in H. discriminate.
  - reflexivity.
  - intros l Hl. apply list_elem_of_singleton in Hl. subst l. simpl. discriminate.
Defined.

(** ** Persistence *)

Lemma new_dicts_run records s :
  new_dicts records s =
    (Return (seq (length (heap s)) (length records)),
     {| heap := heap s ++ records; queue := queue s; queue_file := queue_file s |}).
Proof.
  revert s. induction records as [|v rest IH]; intros s; simpl.
  - unfold ret. rewrite app_nil_r. destruct s; reflexivity.
  - unfold bind, new_dict. rewrite IH. simpl. unfold ret.
    rewrite length_app, <- app_assoc. simpl.
    replace (length (heap s) + 1) with (S (length (heap s))) by lia.
    reflexivity.
Qed.

Lemma records_of_new h records :
  records_of (h ++ records) (seq (length h) (length records)) = records.
Proof.
  revert h. induction records as [|v rest IH]; intros h; simpl; [reflexivity|].
  unfold records_of in *. simpl. rewrite list_lookup_middle by reflexivity. simpl.
  f_equal. specialize (IH (h ++ [v])).
  rewrite length_app, <- app_assoc in IH. simpl in IH.
  replace (length h + 1) with (S (length h)) in IH by lia.
  exact IH.
Qed.

Lemma records_of_length s :
  wf s -> length (records_of (heap s) (queue s)) = length (queue s).
Proof.
  intros [_ Hlt]. unfold records_of.
  generalize dependent (queue s). generalize (heap s). intros h q.
  induction q as [|l q IH]; intros Hlt; simpl; [reflexivity|].
  apply Forall_cons in Hlt as [Hl Hlt].
  apply lookup_lt_is_Some_2 in Hl as [d Hd]. rewrite Hd. simpl.
  f_equal. apply IH. assumption.
Qed.

Lemma init_run_document qf records p :
  contents qf = Some (Document records) ->
  __init__ qf p =
    (Return tt,
     {| heap := heap p ++ records;
        queue := seq (length (heap p)) (length records);
        queue_file := qf |}).
Proof.
  intros Hc. unfold __init__, _load_queue. run_py. rewrite Hc. simpl.
  rewrite new_dicts_run. reflexivity.
Qed.

(** C7.  For every queue of [n] items on a store that takes the write,
    [_save_queue] followed by building a queue from that store (in any
    process) gives a queue of exactly [n] items, with the same field values
    as the original items, in the same order. *)
Theorem save_then_load_roundtrip (s p : state) (n : nat) :
  wf s -> writable (queue_file s) = true -> length (queue s) = n ->
  exists s1 s2,
    _save_queue s = (Return tt, s1) /\
    __init__ (queue_file s1) p = (Return tt, s2) /\
    length (queue s2) = n /\
    length (records_of (heap s2) (queue s2)) = n /\
    records_of (heap s2) (queue s2) = records_of (heap s) (queue s).
Proof.
  intros Hwf Hw Hn.
  exists (saved s). eexists.
  split; [apply save_queue_run|].
  assert (contents (queue_file (saved s))
          = Some (Document (records_of (heap s) (queue s)))) as Hc
    by (unfold saved; simpl; rewrite Hw; reflexivity).
  split; [apply (init_run_document _ _ p Hc)|]. simpl.
  rewrite length_seq, records_of_new, records_of_length by assumption.
  auto.
Qed.

Lemma save_then_load_roundtrip_witness :
  exists s1 s2,
    _save_queue twins = (Return tt, s1) /\
    __init__ (queue_file s1) start = (Return tt, s2) /\
    length (queue s2) = 2 /\
    length (records_of (heap s2) (queue s2)) = 2 /\
    records_of (heap s2) (queue s2) = [twin; twin].
Proof.
  exact (save_then_load_roundtrip twins start 2 wf_twins eq_refl eq_refl).
Defined.

(** C8.  Building a queue on a store whose file is missing, or whose file
    holds text that [json.load] rejects, returns normally with an empty
    queue. *)
Theorem load_missing_or_unparsable (qf : store) (p : state) :
  contents qf = None \/ (exists text, contents qf = Some (Unparsable text)) ->
  exists s, __init__ qf p = (Return tt, s) /\
    queue s = [] /\ size s = (Return 0%Z, s).
Proof.
  intros [Hc | [text Hc]]; unfold __init__, _load_queue; run_py; rewrite Hc; simpl;
    (eexists; split; [reflexivity|]; split; reflexivity).
Qed.

Lemma load_missing_or_unparsable_witness :
  exists s,
    __init__ {| contents := Some (Unparsable "invalid json {{{"); writable := true |} start
      = (Return tt, s) /\
    queue s = [] /\ size s = (Return 0%Z, s).
Proof.
  apply (load_missing_or_unparsable
           {| contents := Some (Unparsable "invalid json {{{"); writable := true |} start).
  right. exists "invalid json {{{". reflexivity.
Defined.

(** ** The retry count and the last attempt *)

Lemma counted_fresh fp cap now : counted (fresh_dict fp cap now).
Proof. split; [simpl; lia|]. split; reflexivity. Qed.

Lemma counted_failed message now d : counted d -> counted (failed message now d).
Proof.
  intros [Hge _]. unfold counted, retry_invariant, failed. simpl.
  split; [lia|]. split; [lia | discriminate].
Qed.

Lemma queue_invariant_exec c s s' :
  wf s -> queue_invariant s -> exec c s = (Return tt, s') -> queue_invariant s'.
Proof.
  intros Hwf Hinv Hrun.
  destruct (exec_effect c s Hwf) as (s1 & Hrun1 & _ & _ & Hq & Hold).
  rewrite Hrun in Hrun1. assert (s' = s1) as -> by congruence.
  intros l d' Hl Hd'. destruct (Hq l Hl) as [Hin | (_ & fp & cap & now & Hnew)].
  - destruct (Hold l d' Hl Hin Hd') as (d & Hd & [-> | (e & now & ->)]).
    + eapply Hinv; eassumption.
    + apply counted_failed. eapply Hinv; eassumption.
  - rewrite Hnew in Hd'. injection Hd' as <-. apply counted_fresh.
Qed.

(** C9.  Starting from an empty queue, whatever calls are made, all of them
    return normally and every stored item has [retry_count = 0] exactly when
    its [last_attempt] is null.  In the state reached, [add] appends an item
    with retry count 0, no last attempt and no error, and the invariant
    holds after it; [mark_failure] leaves the item it updates with a
    positive retry count and a last attempt, and the invariant holds after
    it. *)
Theorem retry_invariant_preserved (s0 : state) (cs : list call) :
  queue s0 = [] ->
  exists s, run cs s0 = (Return tt, s) /\
    (forall l d, l ∈ queue s -> heap s !! l = Some d -> retry_invariant d) /\
    (forall fp cap now, exists s' l d,
       add fp cap now s = (Return tt, s') /\
       queue s' = queue s ++ [l] /\ heap s' !! l = Some d /\
       file_path d = fp /\ caption d = cap /\ added_at d = now /\
       retry_count d = 0%Z /\ last_attempt d = None /\ error d = None /\
       (forall l0 d0, l0 ∈ queue s' -> heap s' !! l0 = Some d0 -> retry_invariant d0)) /\
    (forall item v message now i l,
       heap s !! item = Some v ->
       first_with_values (heap s) (queue s) v i l ->
       exists s' d',
         mark_failure item message now s = (Return tt, s') /\
         heap s' !! l = Some d' /\
         (retry_count d' > 0)%Z /\ last_attempt d' <> None /\
         (forall l0 d0, l0 ∈ queue s' -> heap s' !! l0 = Some d0 -> retry_invariant d0)).
Proof.
  intros Hempty.
  assert (wf s0) as Hwf0 by (split; rewrite Hempty; constructor).
  assert (queue_invariant s0) as Hinv0.
  { intros l d Hl. rewrite Hempty in Hl. inversion Hl. }
  destruct (run_invariant queue_invariant queue_invariant_exec cs s0 Hwf0 Hinv0)
    as (s & Hrun & Hwf & Hinv).
  exists s. split; [assumption|]. split; [|split].
  - intros l d Hl Hd. apply (Hinv l d Hl Hd).
  - intros fp cap now.
    pose proof (queue_invariant_exec (Add fp cap now) s _ Hwf Hinv (add_run s fp cap now))
      as Hinv'.
    eexists. exists (length (heap s)), (fresh_dict fp cap now).
    split; [apply add_run|]. simpl.
    split; [reflexivity|].
    split; [now rewrite list_lookup_middle|].
    repeat (split; [reflexivity|]).
    intros l0 d0 Hl0 Hd0. apply (Hinv' l0 d0 Hl0 Hd0).
  - intros item v message now i l Hv Hfirst.
    assert (list_index (heap s) (queue s) item = Some i) as Hi
      by (apply (list_index_first _ _ _ v); eauto).
    destruct Hfirst as (Hl & Hlv & _).
    pose proof (mark_failure_found s item message now i l v Hi Hl Hlv) as Hrun'.
    pose proof (queue_invariant_exec (MarkFailure item message now) s _ Hwf Hinv Hrun')
      as Hinv'.
    assert (counted v) as [Hge _].
    { apply (Hinv l v); [eapply list_elem_of_lookup_2; eassumption | assumption]. }
    eexists. exists (failed message now v).
    split; [exact Hrun'|]. simpl.
    split; [apply list_lookup_insert_eq; eapply lookup_lt_Some; eassumption|].
    unfold failed. simpl.
    split; [lia|]. split; [discriminate|].
    intros l0 d0 Hl0 Hd0. apply (Hinv' l0 d0 Hl0 Hd0).
Qed.

Lemma retry_invariant_preserved_witness :
  exists s,
    run [Add "a.jpg" "" 0%Z; Add "b.jpg" "" 1%Z; GetNext 2%Z;
         MarkFailure 0 "timeout" 3%Z] start = (Return tt, s) /\
    forall l d, l ∈ queue s -> heap s !! l = Some d -> retry_invariant d.
Proof.
  destruct (retry_invariant_preserved start
              [Add "a.jpg" "" 0%Z; Add "b.jpg" "" 1%Z; GetNext 2%Z;
               MarkFailure 0 "timeout" 3%Z] eq_refl)
    as (s & Hrun & Hinv & _).
  exists s. split; [exact Hrun | exact Hinv].
Defined.

(** ** Two stored dictionaries with the same values *)

Lemma list_index_same_values h q x x' v :
  h !! x = Some v -> h !! x' = Some v ->
  list_index h q x = list_index h q x'.
Proof.
  intros Hx Hx'. induction q as [|l q IH]; simpl; [reflexivity|].
  assert (dict_eq h l x = dict_eq h l x') as ->.
  { destruct (dict_eq h l x') eqn:E.
    - apply (dict_eq_value h l x v Hx). now apply (dict_eq_value h l x' v Hx').
    - apply (dict_eq_value_false h l x v Hx). now apply (dict_eq_value_false h l x' v Hx'). }
  now rewrite IH.
Qed.

(** C10.  Items are matched by the values of their fields, not by which
    object they are: two dictionaries with the same values are
    interchangeable as the argument of [mark_success] and [mark_failure].
    When two or more stored items have the values of the given one,
    [mark_success] removes exactly the first of them (the queue is one
    shorter and the later one is still in it), and [mark_failure] updates
    exactly the first of them and nothing else.  The stored item that
    [mark_failure] updates can be another one than the item the caller got
    from [get_next]. *)
Theorem items_matched_by_value :
  (forall s x x' v message now,
     heap s !! x = Some v -> heap s !! x' = Some v ->
     mark_success x s = mark_success x' s /\
     mark_failure x message now s = mark_failure x' message now s) /\
  (forall s item v i j li lj,
     wf s -> heap s !! item = Some v ->
     first_with_values (heap s) (queue s) v i li ->
     i < j -> queue s !! j = Some lj -> heap s !! lj = Some v ->
     exists s', mark_success item s = (Return tt, s') /\
       queue s' = delete i (queue s) /\
       length (queue s') + 1 = length (queue s) /\
       (li ∉ queue s') /\ (lj ∈ queue s')) /\
  (forall s item v i j li lj message now,
     wf s -> heap s !! item = Some v ->
     first_with_values (heap s) (queue s) v i li ->
     i < j -> queue s !! j = Some lj -> heap s !! lj = Some v ->
     exists s', mark_failure item message now s = (Return tt, s') /\
       queue s' = queue s /\
       heap s' !! li = Some (failed message now v) /\
       heap s' !! lj = Some v /\
       forall l, l <> li -> heap s' !! l = heap s !! l) /\
  (exists s1 s2 s3 y l,
     run [Add "a.jpg" "" 0%Z; Add "a.jpg" "" 0%Z; GetNext 0%Z;
          MarkFailure 0 "timeout" 0%Z] start = (Return tt, s1) /\
     get_next 0%Z s1 = (Return (Some y), s1) /\
     mark_failure y "timeout" 0%Z s1 = (Return tt, s2) /\
     mark_failure y "timeout" 20%Z s2 = (Return tt, s3) /\
     l ∈ queue s2 /\ l <> y /\
     heap s3 !! l <> heap s2 !! l /\ heap s3 !! y = heap s2 !! y).
Proof.
  split; [|split; [|split]].
  - intros s x x' v message now Hx Hx'.
    pose proof (list_index_same_values (heap s) (queue s) x x' v Hx Hx') as Hi.
    split.
    + unfold mark_success, try_except, bind, get_state.
      now rewrite !list_remove_index, Hi.
    + unfold mark_failure, try_except, bind, get_state. now rewrite Hi.
  - intros s item v i j li lj Hwf Hv Hfirst Hij Hj Hjv.
    assert (list_index (heap s) (queue s) item = Some i) as Hi
      by (apply (list_index_first _ _ _ v); eauto).
    destruct Hfirst as (Hl & Hlv & _).
    eexists. split; [apply (mark_success_found s item i Hi)|]. simpl.
    split; [reflexivity|]. split; [|split].
    + rewrite length_delete by eauto. apply lookup_lt_Some in Hl. lia.
    + apply not_elem_of_delete; [apply Hwf | assumption].
    + apply (list_elem_of_lookup_2 _ (j - 1)).
      rewrite list_lookup_delete_ge by lia.
      replace (S (j - 1)) with j by lia. assumption.
  - intros s item v i j li lj message now Hwf Hv Hfirst Hij Hj Hjv.
    assert (list_index (heap s) (queue s) item = Some i) as Hi
      by (apply (list_index_first _ _ _ v); eauto).
    destruct Hfirst as (Hl & Hlv & _).
    assert (li <> lj) as Hne.
    { intros ->. pose proof (NoDup_lookup (queue s) i j lj (proj1 Hwf) Hl Hj). lia. }
    eexists. split; [apply (mark_failure_found s item message now i li v Hi Hl Hlv)|]. simpl.
    split; [reflexivity|]. split; [|split].
    + apply list_lookup_insert_eq. eapply lookup_lt_Some; eassumption.
    + rewrite list_lookup_insert_ne by assumption. assumption.
    + intros l Hl'. apply list_lookup_insert_ne. congruence.
  - exists one_failed, both_failed, first_failed_again, 1, 0.
    split; [vm_compute; reflexivity|]. split; [vm_compute; reflexivity|].
    split; [vm_compute; reflexivity|]. split; [vm_compute; reflexivity|].
    split; [apply list_elem_of_lookup; exists 0; reflexivity|].
    split; [discriminate|]. split; [|reflexivity].
    intros H. apply (f_equal (fmap retry_count)) in H. vm_compute in H. discriminate.
Qed.

Lemma items_matched_by_value_witness :
  exists s', mark_failure 1 "timeout" 5%Z twins = (Return tt, s') /\
    queue s' = queue twins /\
    heap s' !! 0 = Some (failed "timeout" 5%Z twin) /\
    heap s' !! 1 = Some twin.
Proof.
  destruct (proj1 (proj2 (proj2 items_matched_by_value))
              twins 1 twin 0 1 0 1 "timeout" 5%Z wf_twins eq_refl)
    as (s' & Hrun & Hq & H0 & H1 & _).
  - split; [reflexivity|]. split; [reflexivity|]. intros j l' Hj. lia.
  - lia.
  - reflexivity.
  - reflexivity.
  - exists s'. split; [exact Hrun|]. split; [exact Hq|]. split; [exact H0 | exact H1].
Defined.

(** * Further properties of the queue *)

(** ** [get_stats] *)

Lemma count_if_split (p : dict -> bool) items :
  (count_if p items + count_if (fun d => negb (p d)) items)%Z = Z.of_nat (length items).
Proof.
  unfold count_if. induction items as [|d items IH]; [reflexivity|].
  destruct (p d) eqn:E.
  - rewrite (filter_cons_True (fun d => p d = true)) by assumption.
    rewrite (filter_cons_False (fun d => negb (p d) = true)) by (rewrite E; discriminate).
    simpl length. lia.
  - rewrite (filter_cons_False (fun d => p d = true)) by congruence.
    rewrite (filter_cons_True (fun d => negb (p d) = true)) by (rewrite E; reflexivity).
    simpl length. lia.
Qed.

Lemma count_if_nonneg p items : (0 <= count_if p items)%Z.
Proof. unfold count_if. lia. Qed.

Lemma fold_left_max_spec rest x :
  (x <= fold_left Z.max rest x)%Z /\
  (forall y, In y rest -> (y <= fold_left Z.max rest x)%Z) /\
  In (fold_left Z.max rest x) (x :: rest).
Proof.
  revert x. induction rest as [|z rest IH]; intros x; simpl.
  - split; [lia|]. split; [tauto | now left].
  - destruct (IH (Z.max x z)) as (Hge & Hall & Hin). split; [lia|]. split.
    + intros y [<- | Hy]; [lia | now apply Hall].
    + destruct Hin as [Heq | Hin]; [|right; right; assumption].
      destruct (Z.max_spec x z) as [[_ Hm] | [_ Hm]]; rewrite Hm in *.
      * right. left. assumption.
      * left. assumption.
Qed.

Lemma in_records_of h q d :
  In d (records_of h q) <-> exists l, l ∈ q /\ h !! l = Some d.
Proof. unfold records_of. rewrite <- list_elem_of_In. apply list_elem_of_omap. Qed.

Lemma get_stats_run s :
  queue s <> [] ->
  get_stats s =
    (Return {| total := Z.of_nat (length (queue s));
               never_attempted :=
                 count_if (fun d => bool_decide (last_attempt d = None))
                   (records_of (heap s) (queue s));
               retrying :=
                 count_if (fun d => negb (bool_decide (last_attempt d = None)))
                   (records_of (heap s) (queue s));
               max_retry_count :=
                 py_max (map retry_count (records_of (heap s) (queue s))) 0 |}, s).
Proof.
  intros Hne. unfold get_stats, bind, get_state, ret.
  destruct (queue s); [congruence | reflexivity].
Qed.

Lemma get_stats_run_empty s :
  queue s = [] ->
  get_stats s =
    (Return {| total := 0; never_attempted := 0; retrying := 0; max_retry_count := 0 |}, s).
Proof.
  intros Hq. unfold get_stats, bind, get_state, ret. rewrite Hq. reflexivity.
Qed.

(** X1.  The counters of [get_stats] add up: in a well-formed state, [total] is
    the length of the queue (what [size] returns), and every stored item is
    counted once, as never attempted or as retrying.  The call changes
    nothing. *)
Theorem get_stats_counts_partition (s : state) :
  wf s ->
  exists st, get_stats s = (Return st, s) /\
    size s = (Return (total st), s) /\
    total st = Z.of_nat (length (queue s)) /\
    (never_attempted st + retrying st = total st)%Z /\
    (0 <= never_attempted st)%Z /\ (0 <= retrying st)%Z.
Proof.
  intros Hwf. pose proof (records_of_length s Hwf) as Hlen.
  destruct (decide (queue s = [])) as [Hq | Hq].
  - eexists. split; [apply (get_stats_run_empty s Hq)|].
    unfold size, bind, get_state, ret. rewrite Hq. simpl.
    repeat split; reflexivity || lia.
  - eexists. split; [apply (get_stats_run s Hq)|]. simpl.
    split; [reflexivity|]. split; [reflexivity|].
    split; [|split; apply count_if_nonneg].
    rewrite count_if_split, Hlen. reflexivity.
Qed.

Lemma get_stats_counts_partition_witness :
  exists st, get_stats after_scenario = (Return st, after_scenario) /\
    (never_attempted st + retrying st = total st)%Z.
Proof.
  destruct (get_stats_counts_partition after_scenario) as (st & Hrun & _ & _ & Hsum & _).
  - apply (bool_decide_unpack _). vm_compute. exact I.
  - exists st. split; [exact Hrun | exact Hsum].
Defined.

(** X2.  [max_retry_count] is the largest retry count in the queue: no stored
    item has a larger one, some stored item has exactly it, and it is 0 for
    the empty queue. *)
Theorem get_stats_max_retry_count (s : state) :
  wf s ->
  exists st, get_stats s = (Return st, s) /\
    (forall l d, l ∈ queue s -> heap s !! l = Some d ->
       (retry_count d <= max_retry_count st)%Z) /\
    (queue s = [] -> max_retry_count st = 0%Z) /\
    (queue s <> [] ->
       exists l d, l ∈ queue s /\ heap s !! l = Some d /\
         retry_count d = max_retry_count st).
Proof.
  intros Hwf. pose proof (records_of_length s Hwf) as Hlen.
  destruct (decide (queue s = [])) as [Hq | Hq].
  - eexists. split; [apply (get_stats_run_empty s Hq)|]. simpl.
    split; [|split; [reflexivity | congruence]].
    intros l d Hl. rewrite Hq in Hl. inversion Hl.
  - eexists. split; [apply (get_stats_run s Hq)|]. simpl.
    assert (forall l d, l ∈ queue s -> heap s !! l = Some d ->
              In d (records_of (heap s) (queue s))) as Hin_rec
      by (intros l d Hl Hd; apply in_records_of; eauto).
    assert (forall d, In d (records_of (heap s) (queue s)) ->
              exists l, l ∈ queue s /\ heap s !! l = Some d) as Hrec_in
      by (intros d Hd; now apply in_records_of).
    destruct (records_of (heap s) (queue s)) as [|d0 items].
    { destruct (queue s); [congruence | discriminate]. }
    simpl map. unfold py_max.
    destruct (fold_left_max_spec (map retry_count items) (retry_count d0))
      as (Hge & Hall & Hin).
    split; [|split; [congruence|]].
    + intros l d Hl Hd. destruct (Hin_rec l d Hl Hd) as [<- | Hd'].
      * assumption.
      * apply Hall. apply in_map. assumption.
    + intros _.
      assert (exists d, In d (d0 :: items) /\
                retry_count d = fold_left Z.max (map retry_count items) (retry_count d0))
        as (d & Hd & Heq).
      { destruct Hin as [Heq | Hin]; [exists d0; split; [now left | assumption]|].
        apply in_map_iff in Hin as (d & Heq & Hd). exists d. split; [now right | assumption]. }
      destruct (Hrec_in d Hd) as (l & Hl & Hld). eauto.
Qed.

Lemma get_stats_max_retry_count_witness :
  exists st, get_stats after_scenario = (Return st, after_scenario) /\
    forall l d, l ∈ queue after_scenario -> heap after_scenario !! l = Some d ->
      (retry_count d <= max_retry_count st)%Z.
Proof.
  destruct (get_stats_max_retry_count after_scenario) as (st & Hrun & Hmax & _).
  - apply (bool_decide_unpack _). vm_compute. exact I.
  - exists st. split; [exact Hrun | exact Hmax].
Defined.

(** ** Write-through and restart *)

Lemma records_of_nil h : records_of h [] = [].
Proof. reflexivity. Qed.

Lemma records_of_heap_app h extra q :
  Forall (fun l => l < length h) q ->
  records_of (h ++ extra) q = records_of h q.
Proof.
  intros Hlt. unfold records_of. induction q as [|l q IH]; [reflexivity|].
  apply Forall_cons in Hlt as [Hl Hlt]. specialize (IH Hlt). simpl.
  rewrite lookup_app_l by assumption.
  destruct (h !! l); [f_equal|]; exact IH.
Qed.

Lemma init_run_empty qf p :
  contents qf = None \/ (exists text, contents qf = Some (Unparsable text)) ->
  __init__ qf p = (Return tt, {| heap := heap p; queue := []; queue_file := qf |}).
Proof.
  intros [Hc | [text Hc]]; unfold __init__, _load_queue; run_py; rewrite Hc; reflexivity.
Qed.

Lemma init_effect qf p :
  exists s, __init__ qf p = (Return tt, s) /\ wf s /\ queue_file s = qf /\ recoverable s.
Proof.
  destruct (contents qf) as [[text | records]|] eqn:Hc.
  - eexists. split; [apply init_run_empty; eauto|]. simpl.
    split; [split; constructor|]. split; [reflexivity|].
    intros p'. eexists. split; [apply init_run_empty; eauto|]. reflexivity.
  - eexists. split; [apply (init_run_document _ _ _ Hc)|]. simpl.
    split; [|split; [reflexivity|]].
    + split; simpl; [apply NoDup_seq|].
      apply Forall_forall. intros l Hl. apply elem_of_seq in Hl.
      rewrite length_app. lia.
    + intros p'. eexists. split; [apply (init_run_document _ _ _ Hc)|]. simpl.
      now rewrite !records_of_new.
  - eexists. split; [apply init_run_empty; eauto|]. simpl.
    split; [split; constructor|]. split; [reflexivity|].
    intros p'. eexists. split; [apply init_run_empty; eauto|]. reflexivity.
Qed.

Lemma saved_recoverable s :
  writable (queue_file s) = true -> recoverable (saved s).
Proof.
  intros Hw p. eexists. split.
  - apply init_run_document. unfold saved. simpl. rewrite Hw. reflexivity.
  - simpl. apply records_of_new.
Qed.

Lemma saved_writable s : writable (queue_file (saved s)) = writable (queue_file s).
Proof. unfold saved. simpl. destruct (writable (queue_file s)) eqn:E; simpl; congruence. Qed.

Lemma write_through_exec c s s' :
  wf s ->
  writable (queue_file s) = true /\ recoverable s ->
  exec c s = (Return tt, s') ->
  writable (queue_file s') = true /\ recoverable s'.
Proof.
  intros Hwf [Hw Hrec] Hrun. destruct c as [fp cap now|now|x|x e now|d]; simpl in Hrun.
  - rewrite add_run in Hrun. apply (f_equal snd) in Hrun; simpl in Hrun; subst s'.
    split; [now rewrite saved_writable | now apply saved_recoverable].
  - unfold bind in Hrun. rewrite get_next_run in Hrun. unfold ret in Hrun.
    assert (s' = s) as -> by congruence. auto.
  - destruct (list_index (heap s) (queue s) x) as [i|] eqn:Hi.
    + rewrite (mark_success_found s x i Hi) in Hrun. apply (f_equal snd) in Hrun; simpl in Hrun; subst s'.
      split; [now rewrite saved_writable | now apply saved_recoverable].
    + rewrite (mark_success_not_found s x Hi) in Hrun.
      assert (s' = s) as -> by congruence. auto.
  - destruct (list_index (heap s) (queue s) x) as [i|] eqn:Hi.
    + pose proof Hi as Hi'. apply list_index_Some in Hi' as (l & Hl & _).
      destruct (wf_lookup s l Hwf) as [d Hd]; [eapply list_elem_of_lookup_2; eassumption|].
      rewrite (mark_failure_found s x e now i l d Hi Hl Hd) in Hrun.
      apply (f_equal snd) in Hrun; simpl in Hrun; subst s'.
      split; [now rewrite saved_writable | now apply saved_recoverable].
    + rewrite (mark_failure_not_found s x e now Hi) in Hrun.
      assert (s' = s) as -> by congruence. auto.
  - run_py. assert (s' = {| heap := heap s ++ [d]; queue := queue s;
                            queue_file := queue_file s |}) as -> by congruence.
    simpl. split; [assumption|]. intros p. destruct (Hrec p) as (s2 & Hinit & Heq).
    exists s2. split; [assumption|]. simpl.
    rewrite records_of_heap_app by apply Hwf. assumption.
Qed.

(** X3.  Write-through: on a store that takes writes, build the queue, make any
    calls, and stop; every call returns normally, and a queue built
    afterwards on the same store has exactly the records the first one
    held at the end, in the same order. *)
Theorem restart_recovers_queue (qf : store) (p0 : state) (cs : list call) :
  writable qf = true ->
  exists s1 s,
    __init__ qf p0 = (Return tt, s1) /\
    run cs s1 = (Return tt, s) /\
    forall p, exists s2,
      __init__ (queue_file s) p = (Return tt, s2) /\
      records_of (heap s2) (queue s2) = records_of (heap s) (queue s).
Proof.
  intros Hw. destruct (init_effect qf p0) as (s1 & Hinit & Hwf1 & Hqf & Hrec1).
  assert (writable (queue_file s1) = true /\ recoverable s1) as HP
    by (rewrite Hqf; auto).
  destruct (run_invariant _ write_through_exec cs s1 Hwf1 HP) as (s & Hrun & _ & _ & Hrec).
  exists s1, s. split; [assumption|]. split; [assumption|]. exact Hrec.
Qed.

Lemma restart_recovers_queue_witness :
  exists s1 s,
    __init__ no_file start = (Return tt, s1) /\
    run scenario s1 = (Return tt, s) /\
    forall p, exists s2,
      __init__ (queue_file s) p = (Return tt, s2) /\
      records_of (heap s2) (queue s2) = records_of (heap s) (queue s).
Proof.
  exact (restart_recovers_queue no_file start scenario eq_refl).
Defined.

Lemma saved_unwritable s : writable (queue_file s) = false -> queue_file (saved s) = queue_file s.
Proof. intros Hw. unfold saved. simpl. now rewrite Hw. Qed.




(** ** Arrival order *)

Lemma get_next_loop_heap_app h extra t q :
  Forall (fun l => l < length h) q ->
  get_next_loop (h ++ extra) t q = get_next_loop h t q.
Proof.
  intros Hlt. induction q as [|l q IH]; [reflexivity|].
  apply Forall_cons in Hlt as [Hl Hlt]. specialize (IH Hlt). simpl.
  rewrite lookup_app_l by assumption. rewrite IH. reflexivity.
Qed.

Lemma get_next_loop_app h t q1 q2 :
  get_next_loop h t (q1 ++ q2) =
    match get_next_loop h t q1 with
    | Some l => Some l
    | None => get_next_loop h t q2
    end.
Proof.
  induction q1 as [|l q1 IH]; [reflexivity|]. simpl.
  destruct (h !! l) as [d|]; [|assumption].
  destruct (last_attempt d) as [t0|]; [|reflexivity].
  destruct (t - t0 >=? backoff_delay (retry_count d))%Z; [reflexivity | assumption].
Qed.

(** X5.  [add] does not jump the queue: it returns normally, leaves every stored
    item where and as it was, and puts the new one last.  So at any time
    [t], if [get_next] returned an item before the [add], it returns the
    same item after it; the new item is returned exactly when nothing that
    was already stored is eligible. *)
Theorem add_keeps_arrival_order (s : state) (fp cap : string) (now t : time) :
  wf s ->
  exists s', add fp cap now s = (Return tt, s') /\
    (forall i l, queue s !! i = Some l ->
       queue s' !! i = Some l /\ heap s' !! l = heap s !! l) /\
    queue s' !! length (queue s) = Some (length (heap s)) /\
    length (queue s') = S (length (queue s)) /\
    (forall l, get_next t s = (Return (Some l), s) ->
       get_next t s' = (Return (Some l), s')) /\
    (get_next t s = (Return None, s) ->
       get_next t s' = (Return (Some (length (heap s))), s')).
Proof.
  intros [Hnd Hlt]. eexists. split; [apply add_run|]. simpl.
  assert (get_next_loop (heap s ++ [fresh_dict fp cap now]) t (queue s ++ [length (heap s)])
          = match get_next_loop (heap s) t (queue s) with
            | Some l => Some l
            | None => Some (length (heap s))
            end) as Hloop.
  { rewrite get_next_loop_app, get_next_loop_heap_app by assumption.
    destruct (get_next_loop (heap s) t (queue s)); [reflexivity|].
    simpl. now rewrite list_lookup_middle. }
  split; [|split; [|split; [|split]]].
  - intros i l Hi. split.
    + rewrite lookup_app_l by (eapply lookup_lt_Some; eassumption). assumption.
    + apply lookup_app_l. rewrite Forall_forall in Hlt. apply Hlt.
      eapply list_elem_of_lookup_2; eassumption.
  - now rewrite list_lookup_middle.
  - rewrite length_app. simpl. lia.
  - intros l Hl. rewrite get_next_run in Hl. rewrite get_next_run. simpl.
    rewrite Hloop. assert (get_next_loop (heap s) t (queue s) = Some l) as -> by congruence.
    reflexivity.
  - intros Hl. rewrite get_next_run in Hl. rewrite get_next_run. simpl.
    rewrite Hloop. assert (get_next_loop (heap s) t (queue s) = None) as -> by congruence.
    reflexivity.
Qed.

Lemma add_keeps_arrival_order_witness :
  exists s', add "c.jpg" "" 101%Z after_scenario = (Return tt, s') /\
    get_next 105%Z s' = (Return (Some 1), s').
Proof.
  destruct (add_keeps_arrival_order after_scenario "c.jpg" "" 101%Z 105%Z)
    as (s' & Hrun & _ & _ & _ & Hsame & _).
  - apply (bool_decide_unpack _). vm_compute. exact I.
  - exists s'. split; [exact Hrun|]. apply Hsame. reflexivity.
Defined.

(** ** Backoff after a failure *)




(** ** The item that [get_next] hands out *)

Lemma get_next_first_of_its_values s now l :
  get_next now s = (Return (Some l), s) ->
  exists i v, first_with_values (heap s) (queue s) v i l.
Proof.
  rewrite get_next_run. intros Hrun.
  assert (get_next_loop (heap s) now (queue s) = Some l) as Hloop by congruence.
  apply get_next_loop_Some in Hloop as (i & Hi & (d & Hd & He) & Hfirst).
  exists i, d. split; [assumption|]. split; [assumption|].
  intros j l' Hj Hl' Hd'. apply (Hfirst j l' Hj Hl'). exists d. auto.
Qed.

(** X7.  The item that [get_next] returns is found as itself: no earlier stored
    item has its field values (an equal one would be eligible too and would
    have been returned instead).  So in a well-formed state [mark_success]
    on it removes that very object and nothing else, and [mark_failure] on
    it updates that very object and nothing else, also when other stored
    items have the same field values. *)
Theorem get_next_item_is_found_as_itself (s : state) (now : time) (l : loc) :
  wf s -> get_next now s = (Return (Some l), s) ->
  exists i v, first_with_values (heap s) (queue s) v i l /\
    (exists s', mark_success l s = (Return tt, s') /\
       heap s' = heap s /\ queue s' = delete i (queue s) /\
       (l ∉ queue s') /\
       forall l', l' <> l -> l' ∈ queue s -> l' ∈ queue s') /\
    (forall message t, exists s',
       mark_failure l message t s = (Return tt, s') /\
       queue s' = queue s /\
       heap s' !! l = Some (failed message t v) /\
       forall l', l' <> l -> heap s' !! l' = heap s !! l').
Proof.
  intros Hwf Hnext.
  destruct (get_next_first_of_its_values s now l Hnext) as (i & v & Hfirst).
  exists i, v. split; [assumption|].
  assert (list_index (heap s) (queue s) l = Some i) as Hi.
  { apply (list_index_first _ _ _ v); [apply Hfirst | eauto]. }
  destruct Hfirst as (Hl & Hlv & _). split.
  - eexists. split; [apply (mark_success_found s l i Hi)|]. simpl.
    split; [reflexivity|]. split; [reflexivity|]. split.
    + apply not_elem_of_delete; [apply Hwf | assumption].
    + intros l' Hne Hl'. apply list_elem_of_lookup_1 in Hl' as [j Hj].
      assert (j <> i) as Hji by (intros ->; congruence).
      destruct (decide (j < i)) as [Hlt | Hge].
      * apply (list_elem_of_lookup_2 _ j). now rewrite list_lookup_delete_lt.
      * apply (list_elem_of_lookup_2 _ (j - 1)).
        rewrite list_lookup_delete_ge by lia.
        replace (S (j - 1)) with j by lia. assumption.
  - intros message t. eexists.
    split; [apply (mark_failure_found s l message t i l v Hi Hl Hlv)|]. simpl.
    split; [reflexivity|]. split.
    + apply list_lookup_insert_eq. eapply lookup_lt_Some; eassumption.
    + intros l' Hne. apply list_lookup_insert_ne. congruence.
Qed.

Lemma get_next_item_is_found_as_itself_witness :
  exists s', mark_success 0 twins = (Return tt, s') /\ 0 ∉ queue s'.
Proof.
  destruct (get_next_item_is_found_as_itself twins 0%Z 0 wf_twins eq_refl)
    as (i & v & _ & (s' & Hrun & _ & _ & Hgone & _) & _).
  exists s'. split; [exact Hrun | exact Hgone].
Defined.

(** * The client *)

Lemma truthy_true s : truthy s = true <-> s <> "".
Proof.
  unfold truthy. rewrite negb_true_iff. split.
  - intros H. now apply String.eqb_neq.
  - intros H. now apply String.eqb_neq.
Qed.

Lemma truthy_false s : truthy s = false <-> s = "".
Proof.
  unfold truthy. rewrite negb_false_iff. apply String.eqb_eq.
Qed.

Lemma truthy_dict_true d : truthy_dict d = true <-> exists m, d = Some m /\ m <> ∅.
Proof.
  destruct d as [m|]; simpl.
  - rewrite negb_true_iff, bool_decide_eq_false. split; [eauto|].
    intros (m' & [= <-] & H). assumption.
  - split; [discriminate | intros (m & [=] & _)].
Qed.

(** X14.  [upload_and_post] reports success exactly when both steps went through:
    [upload_media] gave an object with a non-empty ["id"], and [create_post],
    asked with that id alone and with the joined caption, gave a non-empty
    object.  With success the error is [None]. *)
Theorem upload_and_post_success (self : PixelfedClient) (file_path caption : string) :
  (fst (upload_and_post self file_path caption) = true <->
   exists media media_id post e1 e2,
     upload_media self file_path = (Some media, e1) /\
     media !! "id" = Some media_id /\ media_id <> "" /\
     create_post self [media_id] (String.concat " " (caption_parts self caption))
       = (Some post, e2) /\
     post <> ∅) /\
  (fst (upload_and_post self file_path caption) = true ->
   snd (upload_and_post self file_path caption) = None).
Proof.
  unfold upload_and_post.
  destruct (upload_media self file_path) as [media e1] eqn:Hup.
  destruct (truthy_dict media) eqn:Hm; simpl.
  2:{ split; [|discriminate]. split; [discriminate|].
      intros (m & id & post & e1' & e2 & [= -> ->] & Hid & _).
      simpl in Hm. apply negb_false_iff, bool_decide_eq_true in Hm. subst m.
      rewrite lookup_empty in Hid. discriminate. }
  apply truthy_dict_true in Hm as (m & -> & Hne). simpl.
  destruct (truthy (default "" (m !! "id"))) eqn:Hid; simpl.
  2:{ split; [|discriminate]. split; [discriminate|].
      intros (m' & id & post & e1' & e2 & [= <- _] & Hid' & Hne' & _).
      rewrite Hid' in Hid. simpl in Hid. apply truthy_false in Hid. contradiction. }
  apply truthy_true in Hid.
  destruct (m !! "id") as [id|] eqn:Hlook; simpl in Hid; [|contradiction]. simpl.
  destruct (create_post self [id] (String.concat " " (caption_parts self caption)))
    as [post e2] eqn:Hpost.
  destruct (truthy_dict post) eqn:Hp; simpl.
  - split; [|reflexivity]. split; [|reflexivity]. intros _.
    apply truthy_dict_true in Hp as (p & -> & Hpne).
    exists m, id, p, e1, e2. auto.
  - split; [|discriminate]. split; [discriminate|].
    intros (m' & id' & post' & e1' & e2' & [= <- _] & Hid' & _ & Hpost' & Hpne).
    rewrite Hlook in Hid'. injection Hid' as <-.
    rewrite Hpost in Hpost'. injection Hpost' as -> _.
    simpl in Hp. apply negb_false_iff, bool_decide_eq_true in Hp. contradiction.
Qed.

Lemma concat_nonempty_parts (parts : list string) :
  Forall (fun p => p <> "") parts ->
  String.concat " " parts = "" <-> parts = [].
Proof.
  intros Hne. destruct parts as [|p [|q rest]]; simpl.
  - tauto.
  - apply Forall_cons in Hne as [Hp _]. split; [contradiction | discriminate].
  - apply Forall_cons in Hne as [Hp _]. split; [|discriminate].
    destruct p; [contradiction | discriminate].
Qed.

(** X15.  The caption that is posted is made of the item's caption, the default
    caption and the licence, in this order, with the empty ones left out and
    one space between the others.  So it is empty exactly when all three are
    empty, and it is the item's caption unchanged when the other two are
    empty. *)
Theorem caption_parts_are_the_nonempty_ones (self : PixelfedClient) (caption : string) :
  caption_parts self caption
    = filter (fun p => p <> "") [caption; default_caption self; cc_license self] /\
  (String.concat " " (caption_parts self caption) = "" <->
   caption = "" /\ default_caption self = "" /\ cc_license self = "") /\
  (default_caption self = "" -> cc_license self = "" ->
   String.concat " " (caption_parts self caption) = caption).
Proof.
  assert (caption_parts self caption
          = filter (fun p => p <> "") [caption; default_caption self; cc_license self])
    as Hparts.
  { unfold caption_parts.
    destruct (truthy caption) eqn:Hc, (truthy (default_caption self)) eqn:Hd,
             (truthy (cc_license self)) eqn:Hl;
      repeat match goal with
             | H : truthy _ = true |- _ => apply truthy_true in H
             | H : truthy _ = false |- _ => apply truthy_false in H
             end;
      repeat (first [ rewrite filter_cons_True by assumption
                    | rewrite filter_cons_False by (intros Hx; apply Hx; assumption) ]);
      reflexivity. }
  split; [assumption|]. split.
  - rewrite concat_nonempty_parts.
    + rewrite Hparts. split.
      * intros Hnil.
        assert (forall p, p ∈ [caption; default_caption self; cc_license self] -> p = "")
          as Hall.
        { intros p Hp. destruct (decide (p = "")) as [|Hne]; [assumption|].
          assert (p ∈ filter (fun p => p <> "")
                        [caption; default_caption self; cc_license self]) as Hin
            by (apply list_elem_of_filter; auto).
          rewrite Hnil in Hin. inversion Hin. }
        repeat split; apply Hall; repeat constructor.
      * intros (-> & -> & ->). reflexivity.
    + rewrite Hparts. apply Forall_forall. intros p Hp.
      apply list_elem_of_filter in Hp as [Hp _]. assumption.
  - intros Hd Hl. unfold caption_parts. rewrite Hd, Hl. simpl.
    destruct (truthy caption) eqn:Hc; [reflexivity|].
    apply truthy_false in Hc. now subst caption.
Qed.

(** X16.  Every file the watcher accepts has an image type in the table of
    [_get_mime_type], and no other file has one: the fallback
    [application/octet-stream] is for exactly the files the watcher skips. *)
Theorem watched_extensions_have_image_types (file_path : Path) :
  (suffix_lower file_path ∈ IMAGE_EXTENSIONS <->
   _get_mime_type file_path <> "application/octet-stream") /\
  (suffix_lower file_path ∈ IMAGE_EXTENSIONS ->
   String.prefix "image/" (_get_mime_type file_path) = true).
Proof.
  unfold _get_mime_type, IMAGE_EXTENSIONS. generalize (suffix_lower file_path) as ext.
  intros ext. cbv zeta.
  repeat match goal with
         | |- context [String.eqb ext ?e] => destruct (String.eqb_spec ext e) as [->|?]
         end;
    try (split; [split; [discriminate | intros _; set_solver] | reflexivity]).
  split; [split; [|congruence] | ]; intros H;
    repeat (apply elem_of_cons in H as [-> | H]; [congruence|]); inversion H.
Qed.

(** * The watcher *)

Lemma on_created_skip P e now s :
  is_directory e = true \/
  suffix_lower (src_path e) ∉ IMAGE_EXTENSIONS \/
  str (src_path e) ∈ P ->
  on_created P e now s = (Return P, s).
Proof.
  unfold on_created. intros H.
  destruct (is_directory e); [reflexivity|].
  destruct (decide (suffix_lower (src_path e) ∈ IMAGE_EXTENSIONS)) as [Hext | Hext].
  - rewrite (bool_decide_eq_true_2 _ Hext). simpl.
    destruct H as [H | [H | H]]; [discriminate | contradiction |].
    rewrite (bool_decide_eq_true_2 _ H). reflexivity.
  - rewrite (bool_decide_eq_false_2 _ Hext). reflexivity.
Qed.

Lemma on_created_accept P e now s :
  is_directory e = false ->
  suffix_lower (src_path e) ∈ IMAGE_EXTENSIONS ->
  str (src_path e) ∉ P ->
  on_created P e now s =
    (Return ({[ str (src_path e) ]} ∪ P),
     saved {| heap := heap s ++ [fresh_dict (str (src_path e)) "" now];
              queue := queue s ++ [length (heap s)];
              queue_file := queue_file s |}).
Proof.
  intros Hdir Hext Hnew. unfold on_created. rewrite Hdir.
  rewrite (bool_decide_eq_true_2 _ Hext), (bool_decide_eq_false_2 _ Hnew). simpl.
  unfold bind. rewrite add_run. reflexivity.
Qed.

(** X12.  [on_created] queues a path at most once.  It returns normally and
    never forgets a path.  For a new image file it appends one item for the
    path, with an empty caption, and records the path; for a directory, a
    file of another extension or a path it knows it changes nothing.  And
    once it has handled an event, handling the same event again -- at any
    later time, in any state of the queue, with any set that still holds
    what it held -- changes nothing. *)
Theorem on_created_queues_a_path_once
    (P : gset string) (e : event) (now : time) (s : state) :
  exists P' s', on_created P e now s = (Return P', s') /\
    P ⊆ P' /\
    (is_directory e = false -> suffix_lower (src_path e) ∈ IMAGE_EXTENSIONS ->
     str (src_path e) ∉ P ->
     queue s' = queue s ++ [length (heap s)] /\
     heap s' !! length (heap s) = Some (fresh_dict (str (src_path e)) "" now) /\
     P' = {[ str (src_path e) ]} ∪ P) /\
    (is_directory e = true \/ suffix_lower (src_path e) ∉ IMAGE_EXTENSIONS \/
     str (src_path e) ∈ P ->
     s' = s /\ P' = P) /\
    (forall P'' now2 s2, P' ⊆ P'' -> on_created P'' e now2 s2 = (Return P'', s2)).
Proof.
  destruct (decide (is_directory e = true \/
                    suffix_lower (src_path e) ∉ IMAGE_EXTENSIONS \/
                    str (src_path e) ∈ P)) as [Hskip | Hacc].
  - exists P, s. split; [now apply on_created_skip|]. split; [reflexivity|].
    split; [|split; [auto|]].
    + intros Hdir Hext Hnew. destruct Hskip as [H | [H | H]];
        [congruence | contradiction | contradiction].
    + intros P'' now2 s2 Hsub. apply on_created_skip.
      destruct Hskip as [H | [H | H]]; [auto | auto |]. right. right. apply Hsub, H.
  - assert (is_directory e = false) as Hdir
      by (destruct (is_directory e); [exfalso; apply Hacc; auto | reflexivity]).
    assert (suffix_lower (src_path e) ∈ IMAGE_EXTENSIONS) as Hext
      by (destruct (decide (suffix_lower (src_path e) ∈ IMAGE_EXTENSIONS));
          [assumption | exfalso; apply Hacc; auto]).
    assert (str (src_path e) ∉ P) as Hnew by (intros H; apply Hacc; auto).
    eexists. eexists. split; [now apply on_created_accept|].
    split; [apply union_subseteq_r|]. split; [|split].
    + intros _ _ _. simpl. split; [reflexivity|].
      split; [now rewrite list_lookup_middle | reflexivity].
    + intros H. contradiction.
    + intros P'' now2 s2 Hsub. apply on_created_skip. right. right.
      apply Hsub, elem_of_union. left. now apply elem_of_singleton.
Qed.

Lemma scan_fold_elem (iterdir : list (Path * bool)) (acc : gset string) (x : string) :
  x ∈ fold_left
        (fun existing_files entry =>
           let file_path := fst entry in
           if snd entry && bool_decide (suffix_lower file_path ∈ IMAGE_EXTENSIONS)
           then {[ str file_path ]} ∪ existing_files
           else existing_files)
        iterdir acc <->
  x ∈ acc \/
  exists p, (p, true) ∈ iterdir /\ suffix_lower p ∈ IMAGE_EXTENSIONS /\ str p = x.
Proof.
  revert acc. induction iterdir as [|[p is_file] rest IH]; intros acc; simpl.
  - split; [auto|]. intros [H | (p & Hp & _)]; [assumption | inversion Hp].
  - rewrite IH. clear IH. split.
    + intros [Hacc | (q & Hq & Hext & Hstr)].
      * destruct is_file; simpl in Hacc; [|auto].
        destruct (decide (suffix_lower p ∈ IMAGE_EXTENSIONS)) as [Hext | Hext].
        -- rewrite (bool_decide_eq_true_2 _ Hext) in Hacc.
           apply elem_of_union in Hacc as [Hx | Hx]; [|auto].
           apply elem_of_singleton in Hx. right. exists p.
           split; [left|]. auto.
        -- rewrite (bool_decide_eq_false_2 _ Hext) in Hacc. auto.
      * right. exists q. split; [now right | auto].
    + intros [Hacc | (q & Hq & Hext & Hstr)].
      * left. destruct (is_file && _); [apply elem_of_union; now right | assumption].
      * apply elem_of_cons in Hq as [[= -> <-] | Hq].
        -- left. simpl. rewrite (bool_decide_eq_true_2 _ Hext).
           apply elem_of_union. left. now apply elem_of_singleton.
        -- right. exists q. auto.
Qed.

(** X13.  Files present at start-up are never queued.  [scan_existing_files]
    returns exactly the paths of the listed entries that are files with an
    image extension; with that set (or any larger one) as
    [processed_files], [on_created] changes nothing for any entry that was
    listed as a file. *)
Theorem startup_files_are_never_queued (iterdir : list (Path * bool)) :
  (forall x, x ∈ scan_existing_files iterdir <->
     exists p, (p, true) ∈ iterdir /\ suffix_lower p ∈ IMAGE_EXTENSIONS /\ str p = x) /\
  (forall e P now s,
     (src_path e, true) ∈ iterdir ->
     scan_existing_files iterdir ⊆ P ->
     on_created P e now s = (Return P, s)).
Proof.
  assert (forall x, x ∈ scan_existing_files iterdir <->
            exists p, (p, true) ∈ iterdir /\ suffix_lower p ∈ IMAGE_EXTENSIONS /\ str p = x)
    as Hscan.
  { intros x. unfold scan_existing_files. rewrite scan_fold_elem. split.
    - intros [H | H]; [apply not_elem_of_empty in H; contradiction | assumption].
    - auto. }
  split; [assumption|].
  intros e P now s Hlisted Hsub. apply on_created_skip.
  destruct (decide (suffix_lower (src_path e) ∈ IMAGE_EXTENSIONS)) as [Hext | Hext]; [|auto].
  right. right. apply Hsub. apply Hscan. exists (src_path e). auto.
Qed.

(** * The poll loop *)

Lemma size_run s : size s = (Return (Z.of_nat (length (queue s))), s).
Proof. reflexivity. Qed.

Lemma get_stats_returns s : exists st, get_stats s = (Return st, s).
Proof.
  destruct (decide (queue s = [])) as [Hq | Hq].
  - eexists. apply (get_stats_run_empty s Hq).
  - eexists. apply (get_stats_run s Hq).
Qed.


Lemma process_upload_queue_run client now now' s l d :
  fst (check_connection client) = true ->
  get_next now s = (Return (Some l), s) ->
  heap s !! l = Some d ->
  process_upload_queue client now now' s =
    if fst (upload_and_post client (file_path d) (caption d))
    then mark_success l s
    else (mark_failure l (or_unknown (snd (upload_and_post client (file_path d) (caption d))))
            now' ;; get_stats ;; ret tt) s.
Proof.
  intros Hconn Hnext Hd. unfold process_upload_queue.
  unfold bind at 1. rewrite size_run.
  assert (queue s <> []) as Hne.
  { intros Hq. apply get_next_in_queue in Hnext. rewrite Hq in Hnext. inversion Hnext. }
  destruct (queue s) as [|l0 q] eqn:Hq; [congruence|].
  change (Z.of_nat (length (l0 :: q)) =? 0)%Z with false. cbv iota.
  destruct (check_connection client) as [is_connected error]. simpl in Hconn. subst.
  change (negb true) with false. cbv iota.
  unfold bind at 1. rewrite Hnext.
  unfold bind at 1, get_state. rewrite Hd.
  destruct (upload_and_post client (file_path d) (caption d)) as [success error'].
  destruct success; reflexivity.
Qed.

Lemma process_upload_queue_nothing_to_do client now now' s :
  queue s = [] \/
  fst (check_connection client) = false \/
  (forall l, l ∈ queue s -> ~ eligible_at (heap s) now l) ->
  process_upload_queue client now now' s = (Return tt, s).
Proof.
  intros H. unfold process_upload_queue. unfold bind at 1. rewrite size_run.
  destruct (queue s) as [|l0 q] eqn:Hq; [reflexivity|].
  change (Z.of_nat (length (l0 :: q)) =? 0)%Z with false. cbv iota.
  destruct (check_connection client) as [is_connected error].
  destruct is_connected; [|reflexivity]. change (negb true) with false. cbv iota.
  destruct H as [H | [H | H]]; [discriminate | discriminate |].
  unfold bind at 1. rewrite get_next_run, Hq.
  assert (get_next_loop (heap s) now (l0 :: q) = None) as ->; [|reflexivity].
  apply get_next_loop_None. assumption.
Qed.

(** X10.  A turn of the loop that finds nothing to do leaves everything as it
    was: when the queue is empty, when the connection check fails, or when
    no stored item is eligible at that time, [process_upload_queue] returns
    normally and the state is unchanged -- a server that cannot be reached
    costs no item a retry. *)
Theorem process_upload_queue_idle
    (client : PixelfedClient) (now now' : time) (s : state) :
  queue s = [] \/
  fst (check_connection client) = false \/
  (forall l, l ∈ queue s -> ~ eligible_at (heap s) now l) ->
  process_upload_queue client now now' s = (Return tt, s).
Proof.
  intros H. unfold process_upload_queue. unfold bind at 1. rewrite size_run.
  destruct (queue s) as [|l0 q] eqn:Hq; [reflexivity|].
  change (Z.of_nat (length (l0 :: q)) =? 0)%Z with false. cbv iota.
  destruct (check_connection client) as [is_connected error].
  destruct is_connected; [|reflexivity]. change (negb true) with false. cbv iota.
  destruct H as [H | [H | H]]; [discriminate | discriminate |].
  unfold bind at 1. rewrite get_next_run, Hq.
  assert (get_next_loop (heap s) now (l0 :: q) = None) as ->; [|reflexivity].
  apply get_next_loop_None. assumption.
Qed.

Lemma process_upload_queue_idle_witness :
  process_upload_queue
    {| default_caption := ""; cc_license := "";
       check_connection := (false, Some "Connection error: refused");
       upload_media := fun _ => (None, None);
       create_post := fun _ _ => (None, None) |}
    105%Z 106%Z after_scenario = (Return tt, after_scenario).
Proof.
  apply process_upload_queue_idle. right. left. reflexivity.
Defined.



(** * The program as a whole *)

Lemma run_app cs1 cs2 s :
  run (cs1 ++ cs2) s =
    match run cs1 s with
    | (Return _, s') => run cs2 s'
    | (Raise e, s') => (Raise e, s')
    end.
Proof.
  revert s. induction cs1 as [|c cs1 IH]; intros s; simpl; [reflexivity|].
  unfold bind. destruct (exec c s) as [[[]|e] s1]; [apply IH | reflexivity].
Qed.

Lemma run_single c s : run [c] s = exec c s.
Proof.
  simpl. unfold bind, ret. destruct (exec c s) as [[[]|e] s1]; reflexivity.
Qed.

Lemma process_upload_queue_is_calls client now now' s :
  exists cs, process_upload_queue client now now' s = run cs s.
Proof.
  destruct (decide (fst (check_connection client) = true)) as [Hconn | Hconn].
  - destruct (get_next_loop (heap s) now (queue s)) as [l|] eqn:Hloop.
    + assert (get_next now s = (Return (Some l), s)) as Hnext
        by (rewrite get_next_run, Hloop; reflexivity).
      pose proof Hloop as Hl. apply get_next_loop_Some in Hl as (i & _ & (d & Hd & _) & _).
      rewrite (process_upload_queue_run client now now' s l d Hconn Hnext Hd).
      destruct (fst (upload_and_post client (file_path d) (caption d))).
      * exists [MarkSuccess l]. now rewrite run_single.
      * set (message := or_unknown _).
        exists [MarkFailure l message now']. rewrite run_single. simpl.
        unfold bind. destruct (mark_failure l message now' s) as [[[]|e] s1]; [|reflexivity].
        destruct (get_stats_returns s1) as [st ->]. reflexivity.
    + exists []. apply process_upload_queue_nothing_to_do. right. right.
      now apply get_next_loop_None.
  - exists []. apply process_upload_queue_nothing_to_do. right. left.
    destruct (fst (check_connection client)); congruence.
Qed.

Lemma on_created_is_calls P e now s :
  exists cs P' s',
    on_created P e now s = (Return P', s') /\ run cs s = (Return tt, s') /\ P ⊆ P'.
Proof.
  destruct (decide (is_directory e = true \/
                    suffix_lower (src_path e) ∉ IMAGE_EXTENSIONS \/
                    str (src_path e) ∈ P)) as [Hskip | Hacc].
  - exists [], P, s. split; [now apply on_created_skip|]. split; reflexivity.
  - assert (is_directory e = false) as Hdir
      by (destruct (is_directory e); [exfalso; apply Hacc; auto | reflexivity]).
    assert (suffix_lower (src_path e) ∈ IMAGE_EXTENSIONS) as Hext
      by (destruct (decide (suffix_lower (src_path e) ∈ IMAGE_EXTENSIONS));
          [assumption | exfalso; apply Hacc; auto]).
    assert (str (src_path e) ∉ P) as Hnew by (intros H; apply Hacc; auto).
    exists [Add (str (src_path e)) "" now]. eexists. eexists.
    split; [now apply on_created_accept|].
    split; [rewrite run_single; simpl; apply add_run | apply union_subseteq_r].
Qed.

Lemma run_program_is_calls steps P s :
  wf s ->
  exists cs P' s',
    run_program steps P s = (Return P', s') /\ run cs s = (Return tt, s') /\ P ⊆ P'.
Proof.
  revert P s. induction steps as [|[e now | client now now'] rest IH]; intros P s Hwf; simpl.
  - exists [], P, s. split; [reflexivity|]. split; reflexivity.
  - destruct (on_created_is_calls P e now s) as (cs1 & P1 & s1 & Hrun1 & Hcalls1 & Hsub1).
    destruct (run_invariant (fun _ => True) (fun _ _ _ _ _ _ => I) cs1 s Hwf I)
      as (s1' & Hcalls1' & Hwf1 & _).
    assert (s1' = s1) as -> by congruence.
    destruct (IH P1 s1 Hwf1) as (cs2 & P2 & s2 & Hrun2 & Hcalls2 & Hsub2).
    exists (cs1 ++ cs2), P2, s2. unfold bind. rewrite Hrun1.
    split; [assumption|]. split; [now rewrite run_app, Hcalls1|].
    etransitivity; eassumption.
  - destruct (process_upload_queue_is_calls client now now' s) as (cs1 & Hrun1).
    destruct (run_invariant (fun _ => True) (fun _ _ _ _ _ _ => I) cs1 s Hwf I)
      as (s1 & Hcalls1 & Hwf1 & _).
    destruct (IH P s1 Hwf1) as (cs2 & P2 & s2 & Hrun2 & Hcalls2 & Hsub2).
    exists (cs1 ++ cs2), P2, s2. unfold bind. rewrite Hrun1, Hcalls1.
    split; [assumption|]. split; [now rewrite run_app, Hcalls1 | assumption].
Qed.

(** X17.  The program is durable.  On a store that takes writes, build the queue
    and let the program run -- any events from the watcher, any turns of
    the poll loop, whatever the server answers: nothing raises, no path
    known to the watcher is forgotten, and a queue built afterwards on the
    same store has exactly the items that were pending at the end, in the
    same order. *)
Theorem program_restart_recovers_queue
    (qf : store) (p0 : state) (steps : list step) (P : gset string) :
  writable qf = true ->
  exists s1 P' s,
    __init__ qf p0 = (Return tt, s1) /\
    run_program steps P s1 = (Return P', s) /\
    P ⊆ P' /\
    forall p, exists s2,
      __init__ (queue_file s) p = (Return tt, s2) /\
      records_of (heap s2) (queue s2) = records_of (heap s) (queue s).
Proof.
  intros Hw. destruct (init_effect qf p0) as (s1 & Hinit & Hwf1 & Hqf & Hrec1).
  destruct (run_program_is_calls steps P s1 Hwf1) as (cs & P' & s & Hrun & Hcalls & Hsub).
  assert (writable (queue_file s1) = true /\ recoverable s1) as HP
    by (rewrite Hqf; auto).
  destruct (run_invariant _ write_through_exec cs s1 Hwf1 HP)
    as (s' & Hcalls' & _ & _ & Hrec).
  assert (s' = s) as -> by congruence.
  exists s1, P', s. auto.
Qed.

Lemma program_restart_recovers_queue_witness :
  exists s1 P' s,
    __init__ no_file start = (Return tt, s1) /\
    run_program
      [Created {| is_directory := false;
                  src_path := {| str := "/watch/a.jpg"; suffix_lower := ".jpg" |} |} 1%Z;
       Poll {| default_caption := ""; cc_license := "";
               check_connection := (true, None);
               upload_media := fun _ => (None, Some "Timeout");
               create_post := fun _ _ => (None, None) |} 3%Z 4%Z]
      ∅ s1 = (Return P', s) /\
    ∅ ⊆ P' /\
    forall p, exists s2,
      __init__ (queue_file s) p = (Return tt, s2) /\
      records_of (heap s2) (queue s2) = records_of (heap s) (queue s).
Proof.
  exact (program_restart_recovers_queue no_file start _ ∅ eq_refl).
Defined.

Lemma init_queue_invariant qf p s :
  (forall records d, contents qf = Some (Document records) -> d ∈ records -> counted d) ->
  __init__ qf p = (Return tt, s) -> queue_invariant s.
Proof.
  intros Hrecords Hinit.
  destruct (contents qf) as [[text | records]|] eqn:Hc.
  - rewrite init_run_empty in Hinit by eauto.
    apply (f_equal snd) in Hinit; simpl in Hinit; subst s.
    intros l d Hl. inversion Hl.
  - rewrite (init_run_document _ _ _ Hc) in Hinit.
    apply (f_equal snd) in Hinit; simpl in Hinit; subst s.
    intros l d Hl Hd. simpl in *. apply (Hrecords records d eq_refl).
    rewrite <- (records_of_new (heap p) records).
    apply list_elem_of_In, in_records_of. eauto.
  - rewrite init_run_empty in Hinit by eauto.
    apply (f_equal snd) in Hinit; simpl in Hinit; subst s.
    intros l d Hl. inversion Hl.
Qed.

(** X18.  The program keeps the retry invariant.  If every record in the store
    has a retry count that is not negative and is 0 exactly when there was
    no attempt (as in a store the program wrote, or none at all), then after
    building the queue and any run of the program every stored item still
    has [retry_count = 0] exactly when its [last_attempt] is null. *)
Theorem program_keeps_retry_invariant
    (qf : store) (p0 : state) (steps : list step) (P : gset string) :
  (forall records d, contents qf = Some (Document records) -> d ∈ records -> counted d) ->
  exists s1 P' s,
    __init__ qf p0 = (Return tt, s1) /\
    run_program steps P s1 = (Return P', s) /\
    forall l d, l ∈ queue s -> heap s !! l = Some d ->
      (0 <= retry_count d)%Z /\ retry_invariant d.
Proof.
  intros Hrecords. destruct (init_effect qf p0) as (s1 & Hinit & Hwf1 & _ & _).
  pose proof (init_queue_invariant qf p0 s1 Hrecords Hinit) as Hinv1.
  destruct (run_program_is_calls steps P s1 Hwf1) as (cs & P' & s & Hrun & Hcalls & _).
  destruct (run_invariant queue_invariant queue_invariant_exec cs s1 Hwf1 Hinv1)
    as (s' & Hcalls' & _ & Hinv).
  assert (s' = s) as -> by congruence.
  exists s1, P', s. split; [assumption|]. split; [assumption|]. exact Hinv.
Qed.

Lemma program_keeps_retry_invariant_witness :
  exists s1 P' s,
    __init__ no_file start = (Return tt, s1) /\
    run_program
      [Created {| is_directory := false;
                  src_path := {| str := "/watch/a.jpg"; suffix_lower := ".jpg" |} |} 1%Z;
       Poll {| default_caption := ""; cc_license := "";
               check_connection := (true, None);
               upload_media := fun _ => (None, Some "Timeout");
               create_post := fun _ _ => (None, None) |} 3%Z 4%Z]
      ∅ s1 = (Return P', s) /\
    forall l d, l ∈ queue s -> heap s !! l = Some d ->
      (0 <= retry_count d)%Z /\ retry_invariant d.
Proof.
  apply (program_keeps_retry_invariant no_file start _ ∅).
  intros records d Hc. discriminate Hc.
Defined.

(** * More on the store *)

(** X8.  Loading and saving back is a round trip on the store: build a queue on
    a store that holds a document and takes writes, call [_save_queue], and
    the store holds the same document as before. *)
Theorem load_then_save_keeps_the_document (qf : store) (records : list dict) (p : state) :
  contents qf = Some (Document records) -> writable qf = true ->
  exists s1 s2,
    __init__ qf p = (Return tt, s1) /\
    _save_queue s1 = (Return tt, s2) /\
    queue_file s2 = qf /\ heap s2 = heap s1 /\ queue s2 = queue s1.
Proof.
  intros Hc Hw. eexists. eexists.
  split; [apply (init_run_document _ _ _ Hc)|].
  split; [apply save_queue_run|].
  unfold saved. simpl. rewrite Hw, records_of_new.
  split; [|split; reflexivity].
  destruct qf as [c w]. simpl in *. subst. reflexivity.
Qed.

Lemma load_then_save_keeps_the_document_witness :
  exists s1 s2,
    __init__ (queue_file twins) start = (Return tt, s1) /\
    _save_queue s1 = (Return tt, s2) /\
    queue_file s2 = queue_file twins /\ heap s2 = heap s1 /\ queue s2 = queue s1.
Proof.
  exact (load_then_save_keeps_the_document (queue_file twins) [twin; twin] start
           eq_refl eq_refl).
Defined.

(** X9.  Text that cannot be parsed is not kept.  Building a queue on such a
    store leaves the text in the file, and so does [get_next]; the first
    [add] on a store that takes writes replaces it by the document of the
    one new item, so the old text is gone. *)
Theorem unparsable_store_is_overwritten
    (qf : store) (text : string) (p : state) (fp cap : string) (now t : time) :
  contents qf = Some (Unparsable text) -> writable qf = true ->
  exists s1 s2,
    __init__ qf p = (Return tt, s1) /\
    queue_file s1 = qf /\
    get_next t s1 = (Return None, s1) /\
    add fp cap now s1 = (Return tt, s2) /\
    contents (queue_file s2) = Some (Document [fresh_dict fp cap now]).
Proof.
  intros Hc Hw. eexists. eexists.
  split; [apply init_run_empty; eauto|].
  split; [reflexivity|]. split; [reflexivity|].
  split; [apply add_run|].
  unfold saved. simpl. rewrite Hw. simpl. unfold records_of. simpl.
  now rewrite list_lookup_middle.
Qed.

Lemma unparsable_store_is_overwritten_witness :
  exists s1 s2,
    __init__ {| contents := Some (Unparsable "invalid json {{{"); writable := true |} start
      = (Return tt, s1) /\
    queue_file s1 = {| contents := Some (Unparsable "invalid json {{{"); writable := true |} /\
    get_next 0%Z s1 = (Return None, s1) /\
    add "a.jpg" "" 0%Z s1 = (Return tt, s2) /\
    contents (queue_file s2) = Some (Document [fresh_dict "a.jpg" "" 0%Z]).
Proof.
  exact (unparsable_store_is_overwritten
           {| contents := Some (Unparsable "invalid json {{{"); writable := true |}
           "invalid json {{{" start "a.jpg" "" 0%Z 0%Z eq_refl eq_refl).
Defined.
